(** * A shallow embedding of the TTML lyric parser
    ([src/modules/project/logic/ttml-parser.ts], function [parseLyric] and
    its helpers) and the properties of its line builder. *)

From Stdlib Require Import ZArith String Ascii.
From stdpp Require Import base list gmap.

Set Warnings "-register-all".
Open Scope Z_scope.

(* ------------------------------------------------------------------ *)
(** ** JavaScript strings and numbers *)

(** A JS string is a sequence of UTF-16 code units. *)
Abbreviation jsstr := (list Z).

(** ASCII literal to JS string. *)
Definition js (s : string) : jsstr :=
  map (fun c => Z.of_nat (nat_of_ascii c)) (list_ascii_of_string s).

Definition jsstr_eqb (a b : jsstr) : bool := bool_decide (a = b).

(** Truthiness of a string: the empty string is falsy. *)
Definition truthy (s : jsstr) : bool :=
  match s with [] => false | _ => true end.

(** Truthiness of an optional string ([string | null]). *)
Definition otruthy (o : option jsstr) : bool :=
  match o with Some s => truthy s | None => false end.

(** The code units that [String.prototype.trim] removes (WhiteSpace and
    LineTerminator of ECMA-262). *)
Definition is_js_ws (c : Z) : bool :=
  (c =? 9) || (c =? 10) || (c =? 11) || (c =? 12) || (c =? 13)
  || (c =? 32) || (c =? 160) || (c =? 5760)
  || ((8192 <=? c) && (c <=? 8202))
  || (c =? 8232) || (c =? 8233) || (c =? 8239) || (c =? 8287)
  || (c =? 12288) || (c =? 65279).

Fixpoint drop_ws (s : jsstr) : jsstr :=
  match s with
  | c :: s' => if is_js_ws c then drop_ws s' else s
  | [] => []
  end.

(** [s.trim()] *)
Definition trim (s : jsstr) : jsstr := rev (drop_ws (rev (drop_ws s))).

(** [s.trim().length > 0] *)
Definition nonblank (s : jsstr) : bool := truthy (trim s).

(** ['('] and the fullwidth ['（'] (U+FF08); [')'] and ['）'] (U+FF09). *)
Definition is_open_paren (c : Z) : bool := (c =? 40) || (c =? 65288).
Definition is_close_paren (c : Z) : bool := (c =? 41) || (c =? 65289).

(** [/^[（(]/.test(s)] and [s.replace(/^[（(]/, "")] *)
Definition starts_open (s : jsstr) : bool :=
  match s with c :: _ => is_open_paren c | [] => false end.
Definition strip_open (s : jsstr) : jsstr :=
  match s with c :: s' => if is_open_paren c then s' else s | [] => [] end.

(** [/[)）]$/.test(s)] and [s.replace(/[)）]$/, "")] *)
Definition ends_close (s : jsstr) : bool :=
  match last s with Some c => is_close_paren c | None => false end.
Definition strip_close (s : jsstr) : jsstr :=
  if ends_close s then removelast s else s.

(** The bracket clean-up applied to background texts:
    [s.trim().replace(/^[（(]/, "").replace(/[)）]$/, "").trim()] *)
Definition clean_bg (s : jsstr) : jsstr :=
  trim (strip_close (strip_open (trim s))).

(** JS numbers as they arise in the parser: integer milliseconds from the
    timespan codec, the [Number.POSITIVE_INFINITY] seed of the [min]
    reductions, and whatever [Number(...)] yields for [empty-beat]. *)
Inductive number : Type :=
| Num (z : Z)
| PosInf
| NegInf
| NaN.

(** [Math.min] and [Math.max] on two arguments. *)
Definition math_min (a b : number) : number :=
  match a, b with
  | NaN, _ | _, NaN => NaN
  | NegInf, _ | _, NegInf => NegInf
  | PosInf, x | x, PosInf => x
  | Num x, Num y => Num (Z.min x y)
  end.

Definition math_max (a b : number) : number :=
  match a, b with
  | NaN, _ | _, NaN => NaN
  | PosInf, _ | _, PosInf => PosInf
  | NegInf, x | x, NegInf => x
  | Num x, Num y => Num (Z.max x y)
  end.

(** Strict equality [===] on numbers ([NaN !== NaN]). *)
Definition num_strict_eqb (a b : number) : bool :=
  match a, b with
  | Num x, Num y => Z.eqb x y
  | PosInf, PosInf | NegInf, NegInf => true
  | _, _ => false
  end.

(* ------------------------------------------------------------------ *)
(** ** The XML DOM as the parser sees it *)

Record attr : Type := mkAttr { attr_name : jsstr; attr_value : jsstr }.

(** Nodes of a namespace-aware XML DOM.  Element and attribute names are
    qualified names as written ([ttm:role], [span]). *)
Inductive node : Type :=
| NText (s : jsstr)
| NCData (s : jsstr)
| NComment (s : jsstr)
| NElem (name : jsstr) (attrs : list attr) (kids : list node).

(** [Array.prototype.find] *)
Fixpoint find_first {A} (p : A -> bool) (l : list A) : option A :=
  match l with
  | x :: l' => if p x then Some x else find_first p l'
  | [] => None
  end.

(** [Array.prototype.findIndex], with [None] for [-1]. *)
Fixpoint find_index {A} (p : A -> bool) (l : list A) : option nat :=
  match l with
  | x :: l' => if p x then Some 0%nat else S <$> find_index p l'
  | [] => None
  end.

Fixpoint upto_colon (s : jsstr) : jsstr :=
  match s with
  | c :: s' => if c =? 58 then [] else c :: upto_colon s'
  | [] => []
  end.

(** The part of a qualified name after its last [':']
    ([name.split(":").pop()]). *)
Definition after_colon (name : jsstr) : jsstr := rev (upto_colon (rev name)).

(** [Attr.localName] and [Element.localName] of a namespace-aware parse. *)
Definition local_part (name : jsstr) : jsstr := after_colon name.

(** [localName(el)] of the parser:
    [el.localName || el.tagName.split(":").pop() || el.tagName]. *)
Definition localName (name : jsstr) : jsstr :=
  if truthy (local_part name) then local_part name
  else if truthy (after_colon name) then after_colon name
  else name.

(** [el.getAttribute(name)]: the first attribute with that qualified name. *)
Definition getAttribute (attrs : list attr) (name : jsstr) : option jsstr :=
  attr_value <$> find_first (fun a => jsstr_eqb (attr_name a) name) attrs.

(** [el.hasAttribute(name)] *)
Definition hasAttribute (attrs : list attr) (name : jsstr) : bool :=
  match getAttribute attrs name with Some _ => true | None => false end.

Definition ends_with (s suffix : jsstr) : bool :=
  (length suffix <=? length s)%nat && jsstr_eqb (drop (length s - length suffix) s) suffix.

(** [getAttr(el, target)]: exact name first, then the first attribute whose
    local name or full name is [target] or whose name ends in [":target"]. *)
Definition getAttr (attrs : list attr) (target : jsstr) : option jsstr :=
  match getAttribute attrs target with
  | Some direct => Some direct
  | None =>
      attr_value <$> find_first (fun a =>
        jsstr_eqb (local_part (attr_name a)) target
        || jsstr_eqb (attr_name a) target
        || ends_with (attr_name a) (js ":" ++ target)) attrs
  end.

(** [node.textContent] of an element: the concatenated data of its Text and
    CDATA descendants. *)
Fixpoint descText (n : node) : jsstr :=
  match n with
  | NText s | NCData s => s
  | NComment _ => []
  | NElem _ _ kids => (fix go (l : list node) : jsstr :=
      match l with k :: l' => descText k ++ go l' | [] => [] end) kids
  end.

Definition textContent (n : node) : jsstr :=
  match n with NComment s => s | _ => descText n end.

(* ------------------------------------------------------------------ *)
(** ** Span tree ([SpanNode], [parseSpan], the flatteners) *)

Inductive SpanNode : Type := mkSpan {
  sp_text : jsstr;
  sp_begin : option jsstr;
  sp_end : option jsstr;
  sp_role : option jsstr;
  sp_lang : option jsstr;
  sp_emptyBeat : option jsstr;
  sp_ruby : option jsstr;
  sp_children : list SpanNode;
  sp_tail : jsstr }.

Definition empty_span : SpanNode :=
  mkSpan [] None None None None None None [] [].

(** [lastChild.tail += text] *)
Definition add_tail (c : SpanNode) (t : jsstr) : SpanNode :=
  mkSpan (sp_text c) (sp_begin c) (sp_end c) (sp_role c) (sp_lang c)
    (sp_emptyBeat c) (sp_ruby c) (sp_children c) (sp_tail c ++ t).

(** [parseSpan(spanEl)].  The children are accumulated in reverse, so that
    [lastChild] is the head of the accumulator. *)
Fixpoint parseSpan (n : node) : SpanNode :=
  match n with
  | NElem _ attrs kids =>
      let '(text, rchildren) :=
        (fix go (l : list node) (acc : jsstr * list SpanNode) :=
           match l with
           | [] => acc
           | k :: l' =>
               go l' (match k with
                      | NText t =>
                          match acc.2 with
                          | c :: cs => (acc.1, add_tail c t :: cs)
                          | [] => (acc.1 ++ t, [])
                          end
                      | NElem kn _ _ =>
                          if jsstr_eqb (localName kn) (js "span")
                          then (acc.1, parseSpan k :: acc.2) else acc
                      | _ => acc
                      end)
           end) kids ([], []) in
      mkSpan text (getAttr attrs (js "begin")) (getAttr attrs (js "end"))
        (getAttr attrs (js "role")) (getAttr attrs (js "lang"))
        (getAttr attrs (js "empty-beat")) (getAttr attrs (js "ruby"))
        (rev rchildren) []
  | _ => empty_span
  end.

(** [new Set(["x-translation", "x-roman"])] *)
Definition skipRoles : list jsstr := [js "x-translation"; js "x-roman"].

Definition skipCurrent (span : SpanNode) : bool :=
  match sp_role span with
  | Some r => truthy r && existsb (jsstr_eqb r) skipRoles
  | None => false
  end.

Fixpoint flattenSpanText (span : SpanNode) : jsstr :=
  (if skipCurrent span then []
   else sp_text span ++
        (fix go (l : list SpanNode) : jsstr :=
           match l with c :: l' => flattenSpanText c ++ go l' | [] => [] end)
          (sp_children span))
  ++ sp_tail span.

Definition flattenSpanInnerText (span : SpanNode) : jsstr :=
  if skipCurrent span then []
  else sp_text span ++ flat_map flattenSpanText (sp_children span).

Definition opt_is (o : option jsstr) (v : string) : bool :=
  match o with Some x => jsstr_eqb x (js v) | None => false end.

Fixpoint collectRubyTextSpans (span : SpanNode) : list SpanNode :=
  (if opt_is (sp_ruby span) "text" then [span] else [])
  ++ (fix go (l : list SpanNode) : list SpanNode :=
        match l with c :: l' => collectRubyTextSpans c ++ go l' | [] => [] end)
       (sp_children span).

(* ------------------------------------------------------------------ *)
(** ** The lyric model ([types/ttml.ts]) *)

Record LyricWordBase : Type := mkWordBase {
  wb_word : jsstr; wb_startTime : number; wb_endTime : number }.

Record LyricWord : Type := mkWord {
  w_id : nat;
  w_word : jsstr;
  w_startTime : number;
  w_endTime : number;
  w_obscene : bool;
  w_emptyBeat : number;
  w_romanWord : jsstr;
  w_ruby : option (list LyricWordBase) }.

Record LyricLine : Type := mkLine {
  l_id : nat;
  l_words : list LyricWord;
  l_translatedLyric : jsstr;
  l_romanLyric : jsstr;
  l_isBG : bool;
  l_isDuet : bool;
  l_startTime : number;
  l_endTime : number;
  l_ignoreSync : bool }.

Record TTMLMetadata : Type := mkMeta { m_key : jsstr; m_value : list jsstr }.

Record TTMLLyric : Type := mkLyric {
  metadata : list TTMLMetadata; lyricLines : list LyricLine }.

Record RomanWord : Type := mkRoman {
  r_startTime : number; r_endTime : number; r_text : jsstr }.

Record LineMetadata : Type := mkLineMeta { lm_main : jsstr; lm_bg : jsstr }.

(** [computeWordTiming(words)] *)
Definition computeWordTiming (words : list LyricWordBase) : number * number :=
  let filtered := filter (fun v => nonblank (wb_word v)) words in
  let start := fold_left (fun pv cv => math_min pv (wb_startTime cv)) filtered PosInf in
  let end_ := fold_left (fun pv cv => math_max pv (wb_endTime cv)) filtered (Num 0) in
  (match start with PosInf => Num 0 | _ => start end, end_).

(* ------------------------------------------------------------------ *)
(** ** The state of one [parseLyric] call

    The output array [lyricLines], the id generator [uid()] (a counter),
    and a heap of arrays holding the word-romanization pools: the arrays
    built by the metadata extraction and the per-line copies. *)

Abbreviation loc := nat.

Record St : Type := mkSt {
  st_lines : list LyricLine;
  st_uid : nat;
  st_heap : gmap loc (list RomanWord);
  st_next : loc }.

Definition M (A : Type) : Type := St -> A * St.

Definition ret {A} (a : A) : M A := fun s => (a, s).
Definition bind {A B} (m : M A) (k : A -> M B) : M B :=
  fun s => let '(a, s') := m s in k a s'.

Notation "x <- m ;; k" := (bind m (fun x => k))
  (at level 97, m at next level, right associativity).
Definition uid : M nat :=
  fun s => (st_uid s, mkSt (st_lines s) (S (st_uid s)) (st_heap s) (st_next s)).

(** [new Array(...)] / array literal: a fresh heap cell. *)
Definition alloc (v : list RomanWord) : M loc :=
  fun s => (st_next s, mkSt (st_lines s) (st_uid s)
                         (<[st_next s := v]> (st_heap s)) (S (st_next s))).

Definition load (l : loc) : M (list RomanWord) :=
  fun s => (default [] (st_heap s !! l), s).

Definition store (l : loc) (v : list RomanWord) : M unit :=
  fun s => (tt, mkSt (st_lines s) (st_uid s) (<[l := v]> (st_heap s)) (st_next s)).

(** [lyricLines.push(line)] and [lyricLines.pop()] *)
Definition push_line (ln : LyricLine) : M unit :=
  fun s => (tt, mkSt (st_lines s ++ [ln]) (st_uid s) (st_heap s) (st_next s)).

Definition pop_line : M (option LyricLine) :=
  fun s => (last (st_lines s),
            mkSt (removelast (st_lines s)) (st_uid s) (st_heap s) (st_next s)).

(* ------------------------------------------------------------------ *)
(** ** Word builder and line builder *)

(** The maps built once by the metadata extraction of [parseLyric], which
    [parseLineElement] closes over.  A word-romanization entry holds the
    heap addresses of its [main] and [bg] arrays. *)
Record Ctx : Type := mkCtx {
  c_translations : gmap jsstr LineMetadata;
  c_lineRoman : gmap jsstr LineMetadata;
  c_wordRoman : gmap jsstr (loc * loc);
  c_timedTranslations : gmap jsstr LineMetadata;
  c_mainAgentId : jsstr }.

Definition set_romanWord (w : LyricWord) (r : jsstr) : LyricWord :=
  mkWord (w_id w) (w_word w) (w_startTime w) (w_endTime w) (w_obscene w)
    (w_emptyBeat w) r (w_ruby w).

Definition set_word_text (w : LyricWord) (t : jsstr) : LyricWord :=
  mkWord (w_id w) t (w_startTime w) (w_endTime w) (w_obscene w)
    (w_emptyBeat w) (w_romanWord w) (w_ruby w).

Definition set_words (ln : LyricLine) (ws : list LyricWord) : LyricLine :=
  mkLine (l_id ln) ws (l_translatedLyric ln) (l_romanLyric ln) (l_isBG ln)
    (l_isDuet ln) (l_startTime ln) (l_endTime ln) (l_ignoreSync ln).

Definition set_translated (ln : LyricLine) (t : jsstr) : LyricLine :=
  mkLine (l_id ln) (l_words ln) t (l_romanLyric ln) (l_isBG ln)
    (l_isDuet ln) (l_startTime ln) (l_endTime ln) (l_ignoreSync ln).

Definition set_roman (ln : LyricLine) (t : jsstr) : LyricLine :=
  mkLine (l_id ln) (l_words ln) (l_translatedLyric ln) t (l_isBG ln)
    (l_isDuet ln) (l_startTime ln) (l_endTime ln) (l_ignoreSync ln).

Definition set_times (ln : LyricLine) (st en : number) : LyricLine :=
  mkLine (l_id ln) (l_words ln) (l_translatedLyric ln) (l_romanLyric ln)
    (l_isBG ln) (l_isDuet ln) st en (l_ignoreSync ln).

(** The reductions of the deferred line timing (step 6), over the words'
    [startTime]s and [endTime]s. *)
Definition line_min_start (ws : list LyricWord) : number :=
  fold_left (fun pv cv => math_min pv (w_startTime cv))
    (filter (fun w => nonblank (w_word w)) ws) PosInf.

Definition line_max_end (ws : list LyricWord) : number :=
  fold_left (fun pv cv => math_max pv (w_endTime cv))
    (filter (fun w => nonblank (w_word w)) ws) (Num 0).

(** The background-line bracket surgery on the word list. *)
Definition strip_first_word (ws : list LyricWord) : list LyricWord :=
  match ws with
  | w :: ws' =>
      if starts_open (w_word w) then
        let t := tail (w_word w) in
        if truthy t then set_word_text w t :: ws' else ws'
      else ws
  | [] => []
  end.

Definition strip_last_word (ws : list LyricWord) : list LyricWord :=
  match last ws with
  | Some w =>
      if ends_close (w_word w) then
        let t := removelast (w_word w) in
        if truthy t then removelast ws ++ [set_word_text w t] else removelast ws
      else ws
  | None => ws
  end.

Section Parser.

(** [parseTimespan] of [utils/timestamp.ts], [Number(...)] and
    [Element.innerHTML] are used as they are given. *)
Variable parseTimespan : jsstr -> Z.
Variable Number : jsstr -> number.
Variable innerHTML : node -> jsstr.

(** [begin ? parseTimespan(begin) : null] *)
Definition opt_timespan (o : option jsstr) : option number :=
  match o with
  | Some s => if truthy s then Some (Num (parseTimespan s)) else None
  | None => None
  end.

(** [createWordFromSpanElement(wordEl)] *)
Definition createWordFromSpanElement (wordEl : node) : M (option LyricWord) :=
  match wordEl with
  | NElem _ attrs _ =>
      let begin := getAttr attrs (js "begin") in
      let end_ := getAttr attrs (js "end") in
      let spanNode := parseSpan wordEl in
      let emptyBeat :=
        match getAttr attrs (js "empty-beat") with
        | Some e => if truthy e then Number e else Num 0
        | None => Num 0
        end in
      let obscene := opt_is (getAttr attrs (js "obscene")) "true" in
      if opt_is (sp_ruby spanNode) "container" then
        let baseSpan :=
          find_first (fun c => opt_is (sp_ruby c) "base") (sp_children spanNode) in
        let baseText :=
          match baseSpan with
          | Some b => flattenSpanInnerText b
          | None => flattenSpanInnerText spanNode
          end in
        let rubyTextSpans := collectRubyTextSpans spanNode in
        let containerStart := opt_timespan begin in
        let containerEnd := opt_timespan end_ in
        let rubyWords :=
          map (fun rubySpan =>
                 mkWordBase (flattenSpanInnerText rubySpan)
                   (default (default (Num 0) containerStart)
                      (opt_timespan (sp_begin rubySpan)))
                   (default (default (Num 0) containerEnd)
                      (opt_timespan (sp_end rubySpan))))
            rubyTextSpans in
        let '(rubyStart, rubyEnd) := computeWordTiming rubyWords in
        id <- uid ;;
        ret (Some (mkWord id baseText
                     (default rubyStart containerStart)
                     (default rubyEnd containerEnd)
                     obscene emptyBeat []
                     (if (0 <? length rubyWords)%nat then Some rubyWords else None)))
      else if negb (otruthy begin) || negb (otruthy end_) then ret None
      else
        let wordText := flattenSpanInnerText spanNode in
        id <- uid ;;
        ret (Some (mkWord id wordText
                     (Num (parseTimespan (default [] begin)))
                     (Num (parseTimespan (default [] end_)))
                     obscene emptyBeat [] None))
  | _ => ret None
  end.

(** The word-romanization matching of one word against the pool array at
    [avail]: [findIndex] on exact timings, then [splice(matchIndex, 1)]. *)
Definition matchRoman (avail : loc) (word : LyricWord) : M LyricWord :=
  pool <- load avail ;;
  if (0 <? length pool)%nat then
    match find_index (fun r => num_strict_eqb (r_startTime r) (w_startTime word)
                               && num_strict_eqb (r_endTime r) (w_endTime word)) pool with
    | Some i =>
        match pool !! i with
        | Some r => _ <- store avail (delete i pool) ;; ret (set_romanWord word (r_text r))
        | None => ret word
        end
    | None => ret word
    end
  else ret word.

Definition resolve (isBG : bool) (m : option LineMetadata) : option jsstr :=
  (if isBG then lm_bg else lm_main) <$> m.

(** One iteration of the loop [for (const wordNode of lineEl.childNodes)],
    on the line under construction and [haveBg]; [rec] is the recursive call
    of [parseLineElement] for [x-bg] spans. *)
Definition line_step (rec : node -> bool -> bool -> option jsstr -> M unit)
    (avail : loc) (itunesKey : option jsstr) (k : node) (acc : LyricLine * bool)
    : M (LyricLine * bool) :=
  let '(line, haveBg) := acc in
  match k with
  | NText t =>
      wid <- uid ;;
      let st := if nonblank t then l_startTime line else Num 0 in
      let en := if nonblank t then l_endTime line else Num 0 in
      ret (set_words line (l_words line ++
             [mkWord wid t st en false (Num 0) [] None]), haveBg)
  | NElem kname kattrs _ =>
      let role := getAttribute kattrs (js "ttm:role") in
      if jsstr_eqb kname (js "span") && otruthy role then
        if opt_is role "x-bg" then
          _ <- rec k true (l_isDuet line) itunesKey ;;
          ret (line, true)
        else if opt_is role "x-translation" then
          ret (if truthy (l_translatedLyric line) then line
               else set_translated line (innerHTML k), haveBg)
        else if opt_is role "x-roman" then
          ret (if truthy (l_romanLyric line) then line
               else set_roman line (innerHTML k), haveBg)
        else ret (line, haveBg)
      else
        ow <- createWordFromSpanElement k ;;
        match ow with
        | None => ret (line, haveBg)
        | Some word =>
            word' <- matchRoman avail word ;;
            ret (set_words line (l_words line ++ [word']), haveBg)
        end
  | _ => ret (line, haveBg)
  end.

(** The loop itself. *)
Fixpoint line_loop (rec : node -> bool -> bool -> option jsstr -> M unit)
    (avail : loc) (itunesKey : option jsstr)
    (l : list node) (acc : LyricLine * bool) : M (LyricLine * bool) :=
  match l with
  | [] => ret acc
  | k :: l' =>
      step <- line_step rec avail itunesKey k acc ;;
      line_loop rec avail itunesKey l' step
  end.

(** Step 1 of [parseLineElement]: both [begin] and [end] are non-empty. *)
Definition explicit_timing (attrs : list attr) : bool :=
  otruthy (getAttribute attrs (js "begin")) && otruthy (getAttribute attrs (js "end")).

(** The key used for metadata lookups:
    [isBG ? parentItunesKey : lineEl.getAttribute("itunes:key")]. *)
Definition line_key (attrs : list attr) (isBG : bool) (parentItunesKey : option jsstr)
    : option jsstr :=
  if isBG then parentItunesKey else getAttribute attrs (js "itunes:key").

(** [timedTrans?.main ?? lineTrans?.main ?? ""] (or the [bg] fields). *)
Definition line_translation (ctx : Ctx) (isBG : bool) (k : jsstr) : jsstr :=
  default (default [] (resolve isBG (c_translations ctx !! k)))
    (resolve isBG (c_timedTranslations ctx !! k)).

(** The line object as it stands before the child loop: the literal
    [{ id: uid(), words: [], ... }] followed by the [if (itunesKey)] block. *)
Definition line_init (ctx : Ctx) (attrs : list attr) (isBG isDuet : bool)
    (parentItunesKey : option jsstr) (id : nat) : LyricLine :=
  let explicit := explicit_timing attrs in
  let parsedStartTime :=
    if explicit then Num (parseTimespan (default [] (getAttribute attrs (js "begin"))))
    else Num 0 in
  let parsedEndTime :=
    if explicit then Num (parseTimespan (default [] (getAttribute attrs (js "end"))))
    else Num 0 in
  let agent := getAttribute attrs (js "ttm:agent") in
  let duet :=
    if isBG then isDuet
    else otruthy agent && negb (bool_decide (agent = Some (c_mainAgentId ctx))) in
  let line0 := mkLine id [] [] [] isBG duet parsedStartTime parsedEndTime false in
  match line_key attrs isBG parentItunesKey with
  | Some k =>
      if truthy k then
        set_roman (set_translated line0 (line_translation ctx isBG k))
          (default [] (resolve isBG (c_lineRoman ctx !! k)))
      else line0
  | None => line0
  end.

(** [sourceRomanList]: the [main] or [bg] pool array of the key, if any. *)
Definition source_roman (ctx : Ctx) (isBG : bool) (itunesKey : option jsstr) : option loc :=
  let romanWordData :=
    match itunesKey with
    | Some k => if truthy k then c_wordRoman ctx !! k else None
    | None => None
    end in
  (if isBG then snd else fst) <$> romanWordData.

(** Steps 6 and 7: the deferred timing and the background bracket surgery. *)
Definition finish_line (explicit : bool) (line2 : LyricLine) : LyricLine :=
  let line3 :=
    if negb explicit then
      set_times line2 (line_min_start (l_words line2)) (line_max_end (l_words line2))
    else line2 in
  if l_isBG line3 then
    set_words line3 (strip_last_word (strip_first_word (l_words line3)))
  else line3.

(** Step 8, the ordering discipline: a line that saw an [x-bg] child pops
    the line the recursion appended last, pushes itself, and pushes the
    popped line back. *)
Definition push_in_order (haveBg : bool) (line4 : LyricLine) : M unit :=
  if haveBg then
    bgLine <- pop_line ;;
    _ <- push_line line4 ;;
    match bgLine with Some b => push_line b | None => ret tt end
  else push_line line4.

(** [parseLineElement(lineEl, isBG, isDuet, parentItunesKey)] *)
Fixpoint parseLineElement (ctx : Ctx) (lineEl : node) (isBG isDuet : bool)
    (parentItunesKey : option jsstr) {struct lineEl} : M unit :=
  match lineEl with
  | NElem _ attrs kids =>
      id <- uid ;;
      let itunesKey := line_key attrs isBG parentItunesKey in
      src <- (match source_roman ctx isBG itunesKey with
              | Some l => load l
              | None => ret []
              end) ;;
      avail <- alloc src ;;
      r <- line_loop (parseLineElement ctx) avail itunesKey kids
             (line_init ctx attrs isBG isDuet parentItunesKey id, false) ;;
      let '(line2, haveBg) := r in
      push_in_order haveBg (finish_line (explicit_timing attrs) line2)
  | _ => ret tt
  end.

(* ---------------------------------------------------------------- *)
(** *** Selectors *)

(** Elements of a tree in document order, each with its ancestors
    (nearest first). *)
Fixpoint elems_anc (anc : list node) (n : node) : list (node * list node) :=
  match n with
  | NElem _ _ kids =>
      (n, anc) :: (fix go (l : list node) : list (node * list node) :=
                     match l with k :: l' => elems_anc (n :: anc) k ++ go l' | [] => [] end) kids
  | _ => []
  end.

(** A compound selector [tag[a1][a2]...]: a type selector (matched against
    the element's local name, case-sensitively in an XML document) and
    attribute-presence selectors (matched against attributes in no
    namespace, i.e. unprefixed ones). *)
Record compound : Type := sel { sel_tag : string; sel_attrs : list string }.

Definition matches (c : compound) (n : node) : bool :=
  match n with
  | NElem name attrs _ =>
      jsstr_eqb (local_part name) (js (sel_tag c))
      && forallb (fun a => hasAttribute attrs (js a)) (sel_attrs c)
  | _ => false
  end.

(** [c1 > c2 > ... > cn], given innermost first. *)
Fixpoint child_chain (cs : list compound) (n : node) (anc : list node) : bool :=
  match cs with
  | [] => true
  | c :: cs' =>
      matches c n &&
      match cs', anc with
      | [], _ => true
      | _, p :: anc' => child_chain cs' p anc'
      | _, [] => false
      end
  end.

(** [doc.querySelectorAll("c1 > ... > cn")] *)
Definition qsa_child (root : node) (cs : list compound) : list node :=
  map fst (filter (fun p => child_chain (rev cs) p.1 p.2) (elems_anc [] root)).

(** [doc.querySelectorAll("a b")] *)
Definition qsa_desc (root : node) (a b : compound) : list node :=
  map fst (filter (fun p => matches b p.1 && existsb (matches a) p.2) (elems_anc [] root)).

(** [el.querySelectorAll(c)] and [el.querySelector(c)]: descendants of [el]
    only. *)
Definition el_qsa (el : node) (c : compound) : list node :=
  filter (matches c) (map fst (tail (elems_anc [] el))).

Definition el_qs (el : node) (c : compound) : option node := head (el_qsa el c).

Definition kids_of (n : node) : list node :=
  match n with NElem _ _ kids => kids | _ => [] end.

Definition attrs_of (n : node) : list attr :=
  match n with NElem _ attrs _ => attrs | _ => [] end.

Definition name_of (n : node) : jsstr :=
  match n with NElem name _ _ => name | _ => [] end.

(* ---------------------------------------------------------------- *)
(** *** Metadata extraction *)

Definition translationSel : list compound :=
  [sel "iTunesMetadata" []; sel "translations" []; sel "translation" [];
   sel "text" ["for"%string]].

Definition transliterationSel : list compound :=
  [sel "iTunesMetadata" []; sel "transliterations" []; sel "transliteration" [];
   sel "text" ["for"%string]].

Definition songwriterSel : list compound :=
  [sel "iTunesMetadata" []; sel "songwriters" []; sel "songwriter" []].

(** The [main]/[bg] texts of a translation [text] element: direct text
    nodes, and the text of children whose [ttm:role] is [x-bg]. *)
Definition translation_texts (textEl : node) : jsstr * jsstr :=
  let '(main, bg) :=
    fold_left (fun acc k =>
      match k with
      | NText t => (acc.1 ++ t, acc.2)
      | NElem _ a _ =>
          if opt_is (getAttribute a (js "ttm:role")) "x-bg"
          then (acc.1, acc.2 ++ textContent k) else acc
      | _ => acc
      end) (kids_of textEl) ([], []) in
  (trim main, clean_bg bg).

(** The [forEach] over the translation elements. *)
Definition extract_translations (root : node) : gmap jsstr LineMetadata :=
  fold_left (fun m textEl =>
    match getAttribute (attrs_of textEl) (js "for") with
    | Some key =>
        if truthy key then
          let '(main, bg) := translation_texts textEl in
          if truthy main || truthy bg then <[key := mkLineMeta main bg]> m else m
        else m
    | None => m
    end) (qsa_child root translationSel) ∅.

(** Whether a translation [text] element is kept as a timed translation:
    [(main.length > 0 || bg.length > 0) && textEl.querySelector("span")]. *)
Definition is_timed (textEl : node) : bool :=
  let '(main, bg) := translation_texts textEl in
  (truthy main || truthy bg) && bool_decide (is_Some (el_qs textEl (sel "span" []))).

(** The second [forEach] over the same elements: the timed translations,
    each deleting the plain entry of its key. *)
Definition extract_timed (root : node) (plain : gmap jsstr LineMetadata)
    : gmap jsstr LineMetadata * gmap jsstr LineMetadata :=
  fold_left (fun acc textEl =>
    let '(timed, tr) := acc in
    match getAttribute (attrs_of textEl) (js "for") with
    | Some key =>
        if truthy key then
          let '(main, bg) := translation_texts textEl in
          if is_timed textEl
          then (<[key := mkLineMeta main bg]> timed, delete key tr)
          else (timed, tr)
        else (timed, tr)
    | None => (timed, tr)
    end) (qsa_child root translationSel) (∅, plain).

(** What one transliteration [text] element yields: the word-by-word flag,
    the [main] and [bg] word lists, and the line-level [main] and [bg]
    texts (before trimming). *)
Definition romanization_scan (textEl : node)
    : bool * list RomanWord * list RomanWord * jsstr * jsstr :=
  fold_left (fun acc k =>
    let '(wbw, mainWords, bgWords, lmain, lbg) := acc in
    match k with
    | NText t => (wbw, mainWords, bgWords, lmain ++ t, lbg)
    | NElem _ a _ =>
        if opt_is (getAttribute a (js "ttm:role")) "x-bg" then
          let nested := el_qsa k (sel "span" ["begin"%string; "end"%string]) in
          if (0 <? length nested)%nat then
            (true, mainWords,
             bgWords ++ map (fun sp =>
               mkRoman (Num (parseTimespan (default [] (getAttribute (attrs_of sp) (js "begin")))))
                       (Num (parseTimespan (default [] (getAttribute (attrs_of sp) (js "end")))))
                       (clean_bg (textContent sp))) nested,
             lmain, lbg)
          else (wbw, mainWords, bgWords, lmain, lbg ++ textContent k)
        else if hasAttribute a (js "begin") && hasAttribute a (js "end") then
          (true,
           mainWords ++ [mkRoman (Num (parseTimespan (default [] (getAttribute a (js "begin")))))
                                 (Num (parseTimespan (default [] (getAttribute a (js "end")))))
                                 (textContent k)],
           bgWords, lmain, lbg)
        else (wbw, mainWords, bgWords, lmain, lbg)
    | _ => (wbw, mainWords, bgWords, lmain, lbg)
    end) (kids_of textEl) (false, [], [], [], []).

(** The [forEach] over the transliteration elements: the line-level map and
    the word-level map, whose [main]/[bg] arrays are allocated on the heap. *)
Definition extract_romanizations (root : node)
    : M (gmap jsstr LineMetadata * gmap jsstr (loc * loc)) :=
  fold_left (fun acc textEl =>
    maps <- acc ;;
    let '(lineMap, wordMap) := maps in
    match getAttribute (attrs_of textEl) (js "for") with
    | Some key =>
        if truthy key then
          let '(wbw, mainWords, bgWords, lmain, lbg) := romanization_scan textEl in
          lm <- alloc mainWords ;;
          lb <- alloc bgWords ;;
          let wordMap' := if wbw then <[key := (lm, lb)]> wordMap else wordMap in
          let lmain' := trim lmain in
          let lbg' := clean_bg lbg in
          let lineMap' :=
            if truthy lmain' || truthy lbg' then <[key := mkLineMeta lmain' lbg']> lineMap
            else lineMap in
          ret (lineMap', wordMap')
        else ret (lineMap, wordMap)
    | None => ret (lineMap, wordMap)
    end) (qsa_child root transliterationSel) (ret (∅, ∅)).

(** [amll:meta] entries, values accumulating per key. *)
Definition add_meta (md : list TTMLMetadata) (key value : jsstr) : list TTMLMetadata :=
  if existsb (fun m => jsstr_eqb (m_key m) key) md then
    map (fun m => if jsstr_eqb (m_key m) key then mkMeta (m_key m) (m_value m ++ [value]) else m) md
  else md ++ [mkMeta key [value]].

Definition extract_meta (root : node) : list TTMLMetadata :=
  fold_left (fun md meta =>
    if jsstr_eqb (name_of meta) (js "amll:meta") then
      match getAttribute (attrs_of meta) (js "key"), getAttribute (attrs_of meta) (js "value") with
      | Some key, Some value => if truthy key && truthy value then add_meta md key value else md
      | _, _ => md
      end
    else md) (qsa_child root [sel "meta" []]) [].

Definition extract_songwriters (root : node) (md : list TTMLMetadata) : list TTMLMetadata :=
  let names := filter truthy (map (fun el => trim (textContent el)) (qsa_child root songwriterSel)) in
  if (0 <? length names)%nat then md ++ [mkMeta (js "songwriter") names] else md.

(** [querySelectorAll("ttm\\:agent")]: a type selector for the local name
    [ttm:agent]. *)
Definition extract_agent (root : node) : jsstr :=
  default (js "v1")
    (head
       (omap (fun agent =>
          if opt_is (getAttribute (attrs_of agent) (js "type")) "person" then
            match getAttribute (attrs_of agent) (js "xml:id") with
            | Some id => if truthy id then Some id else None
            | None => None
            end
          else None) (qsa_child root [sel "ttm:agent" []]))).

(* ---------------------------------------------------------------- *)
(** *** The document driver *)

Definition parseDocument (root : node) : M (list TTMLMetadata) :=
  let itunesTranslations := extract_translations root in
  maps <- extract_romanizations root ;;
  let '(lineRoman, wordRoman) := maps in
  let '(timed, translations) := extract_timed root itunesTranslations in
  let md := extract_songwriters root (extract_meta root) in
  let ctx := mkCtx translations lineRoman wordRoman timed (extract_agent root) in
  _ <- fold_left (fun acc lineEl => _ <- acc ;; parseLineElement ctx lineEl false false None)
         (qsa_desc root (sel "body" []) (sel "p" ["begin"%string; "end"%string])) (ret tt) ;;
  ret md.

End Parser.

(** The outcome of [DOMParser.parseFromString(ttmlText, "application/xml")]
    on the input text: the root element of a well-formed document, or, for
    a text that is not well-formed XML, the root element of the error
    document the engine hands back instead.  What that document holds is
    up to the engine: the HTML Living Standard ("parse XML from a string")
    and Firefox return a fresh document whose root is a [parsererror]
    element ([parsererror_doc]); Chromium and WebKit keep the content parsed
    before the error and insert a [parsererror] element into it. *)
Inductive XmlParse : Type :=
| WellFormed (root : node)
| NotWellFormed (recovered : node).

(** The error document of the standard and of Firefox: a [parsererror]
    root carrying a description of the error. *)
Definition parsererror_doc (message : jsstr) : node :=
  NElem (js "parsererror")
    [mkAttr (js "xmlns") (js "http://www.mozilla.org/newlayout/xml/parsererror.xml")]
    [NText message].

(** The document [parseFromString] returns. *)
Definition parseFromString (r : XmlParse) : node :=
  match r with
  | WellFormed root => root
  | NotWellFormed recovered => recovered
  end.

(** [parseLyric(ttmlText)], from a given state of the [uid()] generator. *)
Definition parseLyric (parseTimespan : jsstr -> Z) (Number : jsstr -> number)
    (innerHTML : node -> jsstr) (uid0 : nat) (r : XmlParse) : TTMLLyric :=
  let '(md, s) := parseDocument parseTimespan Number innerHTML
                    (parseFromString r) (mkSt [] uid0 ∅ 0) in
  mkLyric md (st_lines s).

(* ------------------------------------------------------------------ *)
(** ** The timespan codec *)

Definition digit (c : Z) : option Z :=
  if (48 <=? c) && (c <=? 57) then Some (c - 48) else None.

Fixpoint digits_val (acc : Z) (s : jsstr) : option Z :=
  match s with
  | [] => Some acc
  | c :: s' => d ← digit c; digits_val (acc * 10 + d) s'
  end.

(** [s.split(sep)] *)
Fixpoint split_on (sep : Z) (s : jsstr) : list jsstr :=
  match s with
  | [] => [[]]
  | c :: s' =>
      if c =? sep then [] :: split_on sep s'
      else match split_on sep s' with
           | w :: ws => (c :: w) :: ws
           | [] => [[c]]
           end
  end.

(** Seconds with an optional fraction, in milliseconds ([12], [12.5],
    [12.345]; digits beyond the millisecond are dropped). *)
Definition seconds_ms (s : jsstr) : option Z :=
  match split_on 46 s with
  | [i] => if truthy i then (fun v => v * 1000) <$> digits_val 0 i else None
  | [i; f] =>
      if truthy i && truthy f then
        iv ← digits_val 0 i;
        _ ← digits_val 0 f;
        fv ← digits_val 0 (take 3 (f ++ [48; 48; 48]));
        Some (iv * 1000 + fv)
      else None
  | _ => None
  end.

(** Modelled from the spec: [parseTimespan] of [utils/timestamp.ts]
    (§2 and §6: "converts TTML clock-time strings to integer milliseconds",
    non-negative and order-preserving on well-formed inputs).  Accepted:
    [[[h:]m:]s[.f]] with an optional unit [s].  The spec leaves the result
    on other inputs open; here it is [0]. *)
Definition parseTimespan_spec (t : jsstr) : Z :=
  let t' := if ends_with t (js "s") then removelast t else t in
  let r :=
    match split_on 58 t' with
    | [sec] => seconds_ms sec
    | [m; sec] => mv ← digits_val 0 m; sv ← seconds_ms sec; Some (mv * 60000 + sv)
    | [h; m; sec] =>
        hv ← digits_val 0 h; mv ← digits_val 0 m; sv ← seconds_ms sec;
        Some (hv * 3600000 + mv * 60000 + sv)
    | _ => None
    end in
  default 0 r.

(** Building documents: [el "p" [("begin", "1s")] kids] and [tx "text"]. *)
Definition el (name : string) (attrs : list (string * string)) (kids : list node) : node :=
  NElem (js name) (map (fun p => mkAttr (js p.1) (js p.2)) attrs) kids.

Definition tx (s : string) : node := NText (js s).

(* ------------------------------------------------------------------ *)
(** ** Line-shape predicates used in the statements *)

(** A child that the line builder treats as a [span] with the given
    [ttm:role] ([wordEl.nodeName === "span" && role === r]). *)
Definition is_role_span (r : string) (k : node) : bool :=
  match k with
  | NElem kname kattrs _ =>
      jsstr_eqb kname (js "span") && otruthy (getAttribute kattrs (js "ttm:role"))
      && opt_is (getAttribute kattrs (js "ttm:role")) r
  | _ => false
  end.

Definition is_elem (n : node) : bool :=
  match n with NElem _ _ _ => true | _ => false end.

(** The fields of a line that the child loop never writes. *)
Definition same_frame (a b : LyricLine) : Prop :=
  l_id a = l_id b /\ l_startTime a = l_startTime b /\ l_endTime a = l_endTime b
  /\ l_isBG a = l_isBG b /\ l_isDuet a = l_isDuet b.

(* ------------------------------------------------------------------ *)
(** ** The ruby timing rules as the spec words them (§4.6) *)

(** A segment's time: its own attribute if present, else the container's,
    else [0] (an attribute is present when it is non-empty). *)
Definition ruby_segment_time_spec (ts : jsstr -> Z) (own container : option jsstr) : Z :=
  if otruthy own then ts (default [] own)
  else if otruthy container then ts (default [] container) else 0.

(** The word's time: the container's attribute if present, else [pick]
    ([min] or [max]) over the segments with non-whitespace text, [0] when
    there is none. *)
Definition ruby_word_time_spec (ts : jsstr -> Z) (container : option jsstr)
    (pick : Z -> Z -> Z) (segs : list (jsstr * Z)) : Z :=
  if otruthy container then ts (default [] container)
  else match map snd (filter (fun p => nonblank p.1) segs) with
       | [] => 0
       | x :: xs => fold_left pick xs x
       end.

(* ------------------------------------------------------------------ *)
(** ** Derived views of the parser's output used in the statements *)

(** The first non-empty string of a list, [""] when there is none: what a
    chain of [if (!x) x = y] assignments leaves. *)
Definition first_truthy (l : list jsstr) : jsstr := default [] (find_first truthy l).

(** The translation and line romanization a line starts with, from the
    metadata of its key ([""] without a non-empty key). *)
Definition key_translation (ctx : Ctx) (attrs : list attr) (isBG : bool)
    (parentItunesKey : option jsstr) : jsstr :=
  match line_key attrs isBG parentItunesKey with
  | Some k => if truthy k then line_translation ctx isBG k else []
  | None => []
  end.

Definition key_roman (ctx : Ctx) (attrs : list attr) (isBG : bool)
    (parentItunesKey : option jsstr) : jsstr :=
  match line_key attrs isBG parentItunesKey with
  | Some k => if truthy k then default [] (resolve isBG (c_lineRoman ctx !! k)) else []
  | None => []
  end.

(** The number of lines a line element stands for: itself and, recursively,
    its [x-bg] span children. *)
Fixpoint count_lines (n : node) : nat :=
  match n with
  | NElem _ _ kids =>
      S ((fix go (l : list node) : nat :=
            match l with
            | k :: l' => ((if is_role_span "x-bg" k then count_lines k else 0) + go l')%nat
            | [] => 0%nat
            end) kids)
  | _ => 0%nat
  end.

(** The duet flag of a top-level line element:
    [!!agent && agent !== mainAgentId]. *)
Definition agent_duet (ctx : Ctx) (attrs : list attr) : bool :=
  otruthy (getAttribute attrs (js "ttm:agent"))
  && negb (bool_decide (getAttribute attrs (js "ttm:agent") = Some (c_mainAgentId ctx))).

(** A [role] attribute that the word text flatteners do not skip. *)
Definition role_kept (role : option jsstr) : bool :=
  match role with
  | Some r => negb (truthy r && existsb (jsstr_eqb r) skipRoles)
  | None => true
  end.

(** A node that [parseSpan] keeps entirely: text, comments, and [span]
    elements with a kept [role] whose children are such nodes again. *)
Fixpoint plain_span (n : node) : bool :=
  match n with
  | NText _ | NComment _ => true
  | NCData _ => false
  | NElem name attrs kids =>
      jsstr_eqb (localName name) (js "span") && role_kept (getAttr attrs (js "role"))
      && (fix go (l : list node) : bool :=
            match l with k :: l' => plain_span k && go l' | [] => true end) kids
  end.

(** The [value] an element found by [querySelectorAll("meta")] adds under
    the key [k]: an [amll:meta] element with non-empty [key] [k] and a
    non-empty [value]. *)
Definition meta_value (k : jsstr) (meta : node) : option jsstr :=
  if jsstr_eqb (name_of meta) (js "amll:meta") then
    match getAttribute (attrs_of meta) (js "key"), getAttribute (attrs_of meta) (js "value") with
    | Some key, Some value =>
        if truthy key && truthy value && jsstr_eqb key k then Some value else None
    | _, _ => None
    end
  else None.

(** The values of the key [k], in document order. *)
Definition meta_values (root : node) (k : jsstr) : list jsstr :=
  omap (meta_value k) (qsa_child root [sel "meta" []]).

(** The text of a list of words. *)
Definition words_text (ws : list LyricWord) : jsstr := concat (map w_word ws).

(** The metadata entry of key [k] holding the values [vs], if any. *)
Definition meta_entry (k : jsstr) (vs : list jsstr) : option TTMLMetadata :=
  match vs with [] => None | _ => Some (mkMeta k vs) end.

(** One step of the child loop of [parseSpan], and the text a partial
    result of that loop flattens to. *)
Definition span_step (acc : jsstr * list SpanNode) (k : node) : jsstr * list SpanNode :=
  match k with
  | NText t =>
      match acc.2 with
      | c :: cs => (acc.1, add_tail c t :: cs)
      | [] => (acc.1 ++ t, [])
      end
  | NElem kn _ _ =>
      if jsstr_eqb (localName kn) (js "span") then (acc.1, parseSpan k :: acc.2) else acc
  | _ => acc
  end.

Definition acc_text (p : jsstr * list SpanNode) : jsstr :=
  p.1 ++ flat_map flattenSpanText (rev p.2).

(** The trimmed, non-empty [textContent]s of the songwriter elements. *)
Definition songwriter_names (root : node) : list jsstr :=
  filter truthy (map (fun el => trim (textContent el)) (qsa_child root songwriterSel)).

(* ------------------------------------------------------------------ *)
(** ** Example documents *)

Local Open Scope string_scope.

(** A timed main line whose background span holds only whitespace. *)
Definition doc_bg_blank : node :=
  el "tt" [] [el "body" [] [el "div" [] [
    el "p" [("begin", "1s"); ("end", "2s")] [
      el "span" [("begin", "1s"); ("end", "2s")] [tx "hi"];
      el "span" [("ttm:role", "x-bg")] [tx " "]]]]].

(** A word-by-word transliteration of [L1] and a line of three words, the
    third timed like the first. *)
Definition doc_roman : node :=
  el "tt" [] [
    el "head" [] [el "metadata" [] [el "iTunesMetadata" [] [
      el "transliterations" [] [el "transliteration" [] [
        el "text" [("for", "L1")] [
          el "span" [("begin", "0s"); ("end", "0.5s")] [tx "a"];
          el "span" [("begin", "0.5s"); ("end", "0.9s")] [tx "b"]]]]]]];
    el "body" [] [el "div" [] [
      el "p" [("begin", "0s"); ("end", "1s"); ("itunes:key", "L1")] [
        el "span" [("begin", "0s"); ("end", "0.5s")] [tx "x"];
        el "span" [("begin", "0.5s"); ("end", "0.9s")] [tx "y"];
        el "span" [("begin", "0s"); ("end", "0.5s")] [tx "z"]]]]].

(** A ruby container timed 1.0s to 2.0s with two untimed text segments. *)
Definition ruby_example : node :=
  el "span" [("tts:ruby", "container"); ("begin", "1.0s"); ("end", "2.0s")] [
    el "span" [("tts:ruby", "base")] [tx "kanji"];
    el "span" [("tts:ruby", "text")] [tx "kan"];
    el "span" [("tts:ruby", "text")] [tx "ji"]].

(** A line whose [end] is before its [begin]. *)
Definition doc_reversed : node :=
  el "tt" [] [el "body" [] [el "div" [] [
    el "p" [("begin", "2s"); ("end", "1s")] [
      el "span" [("begin", "1s"); ("end", "1.5s")] [tx "w"]]]]].

(** A translation of [L1] with a nested span. *)
Definition doc_timed_translation : node :=
  el "tt" [] [el "head" [] [el "metadata" [] [el "iTunesMetadata" [] [
    el "translations" [] [el "translation" [] [
      el "text" [("for", "L1")] [tx "Hello"; el "span" [("ttm:role", "x-bg")] [tx "(there)"]]]]]]]].

(** The [Number] and [innerHTML] used with the examples, and an empty
    context and state. *)
Definition number0 (_ : jsstr) : number := Num 0.
Definition innerHTML0 (_ : node) : jsstr := [].
Definition ctx0 : Ctx := mkCtx ∅ ∅ ∅ ∅ (js "v1").
Definition st0 : St := mkSt [] 0 ∅ 0.

Local Close Scope string_scope.

(* ------------------------------------------------------------------ *)
(** * Proofs *)

(** Induction over nodes with a hypothesis for every child. *)
Section NodeInd.
Variable P : node -> Prop.
Hypothesis HText : forall s, P (NText s).
Hypothesis HCData : forall s, P (NCData s).
Hypothesis HComment : forall s, P (NComment s).
Hypothesis HElem : forall n a kids, Forall P kids -> P (NElem n a kids).

Fixpoint node_ind' (x : node) : P x :=
  match x with
  | NText s => HText s
  | NCData s => HCData s
  | NComment s => HComment s
  | NElem n a kids =>
      HElem n a kids
        ((fix go (l : list node) : Forall P l :=
            match l with
            | [] => List.Forall_nil P
            | k :: l' => List.Forall_cons P k l' (node_ind' k) (go l')
            end) kids)
  end.
End NodeInd.

(** Running a computation: split the pair produced by each step. *)
Ltac run :=
  repeat match goal with
  | |- context [match ?m with (_, _) => _ end] =>
      let a := fresh "a" in let s := fresh "s" in let E := fresh "E" in
      destruct m as [a s] eqn:E
  end.

Lemma bind_ext {A B} (m1 m2 : M A) (k1 k2 : A -> M B) s :
  (forall s, m1 s = m2 s) -> (forall a s, k1 a s = k2 a s) ->
  bind m1 k1 s = bind m2 k2 s.
Proof.
  intros Hm Hk. unfold bind. rewrite Hm. destruct (m2 s). apply Hk.
Qed.

Section Proofs.
Variable parseTimespan : jsstr -> Z.
Variable Number : jsstr -> number.
Variable innerHTML : node -> jsstr.

Local Abbreviation PLE := (parseLineElement parseTimespan Number innerHTML).
Local Abbreviation LOOP := (line_loop parseTimespan Number innerHTML).
Local Abbreviation CW := (createWordFromSpanElement parseTimespan Number).

(** The steps that only draw ids: lines, heap and allocator untouched. *)
Definition only_uid (s s' : St) : Prop :=
  st_lines s' = st_lines s /\ st_heap s' = st_heap s /\ st_next s' = st_next s.

Lemma only_uid_refl s : only_uid s s.
Proof. repeat split. Qed.

Lemma only_uid_trans s1 s2 s3 : only_uid s1 s2 -> only_uid s2 s3 -> only_uid s1 s3.
Proof. intros (?&?&?) (?&?&?). repeat split; congruence. Qed.

Lemma cw_only_uid k s : only_uid s (snd (CW k s)).
Proof.
  unfold createWordFromSpanElement. destruct k; simpl; try apply only_uid_refl.
  unfold bind, ret, uid.
  repeat match goal with |- context [if ?b then _ else _] => destruct b end;
    run; simpl; repeat split.
Qed.

Lemma cw_romanWord k s w s' : CW k s = (Some w, s') -> w_romanWord w = [].
Proof.
  unfold createWordFromSpanElement. destruct k; simpl; try discriminate.
  unfold bind, ret, uid.
  repeat match goal with |- context [if ?b then _ else _] => destruct b end;
    run; simpl; try discriminate; intros H; injection H as <- _; reflexivity.
Qed.

(** The romanization matching writes only the pool array it is given. *)
Lemma matchRoman_state avail w s :
  let s' := snd (matchRoman avail w s) in
  st_lines s' = st_lines s /\ st_next s' = st_next s /\ st_uid s' = st_uid s /\
  (forall l, l <> avail -> st_heap s' !! l = st_heap s !! l).
Proof.
  unfold matchRoman, bind, load, store, ret; simpl.
  destruct (0 <? _)%nat; [|repeat split; auto].
  destruct find_index; [|repeat split; auto].
  destruct (_ !! _); simpl; repeat split; auto.
  intros l Hl. rewrite lookup_insert_ne; auto.
Qed.

Lemma step_frame rec avail key k acc s :
  same_frame (fst (fst (line_step parseTimespan Number innerHTML rec avail key k acc s))) (fst acc).
Proof.
  destruct acc as [line hb]. unfold line_step.
  destruct k as [t|t|t|kn ka kk]; unfold bind, ret, uid; simpl;
    try (repeat split; reflexivity).
  repeat match goal with |- context [if ?b then _ else _] => destruct b end;
    run; simpl; repeat split; destruct a; run; simpl; reflexivity.
Qed.

Lemma same_frame_trans a b c : same_frame a b -> same_frame b c -> same_frame a c.
Proof. intros (?&?&?&?&?) (?&?&?&?&?). repeat split; congruence. Qed.

Lemma step_translated rec avail key k acc s :
  is_role_span "x-translation" k = false ->
  l_translatedLyric (fst (fst (line_step parseTimespan Number innerHTML rec avail key k acc s)))
  = l_translatedLyric (fst acc).
Proof.
  destruct acc as [line hb]. unfold line_step, is_role_span.
  destruct k as [t|t|t|kn ka kk]; unfold bind, ret, uid; intros H; try reflexivity.
  destruct (jsstr_eqb kn (js "span") && otruthy (getAttribute ka (js "ttm:role"))) eqn:E1.
  - destruct (opt_is (getAttribute ka (js "ttm:role")) "x-bg"); [run; reflexivity|].
    destruct (opt_is (getAttribute ka (js "ttm:role")) "x-translation") eqn:E2.
    + discriminate H.
    + destruct (opt_is (getAttribute ka (js "ttm:role")) "x-roman");
        [destruct (truthy (l_romanLyric line))|]; reflexivity.
  - run. destruct a; run; reflexivity.
Qed.

Lemma step_no_bg rec avail key k acc s :
  is_role_span "x-bg" k = false ->
  let r := line_step parseTimespan Number innerHTML rec avail key k acc s in
  st_lines (snd r) = st_lines s /\ snd (fst r) = snd acc.
Proof.
  destruct acc as [line hb]. unfold line_step, is_role_span.
  destruct k as [t|t|t|kn ka kk]; unfold bind, ret, uid; intros H; try (split; reflexivity).
  destruct (jsstr_eqb kn (js "span") && otruthy (getAttribute ka (js "ttm:role"))) eqn:E1.
  - destruct (opt_is (getAttribute ka (js "ttm:role")) "x-bg") eqn:E2.
    + discriminate H.
    + destruct (opt_is (getAttribute ka (js "ttm:role")) "x-translation");
        [|destruct (opt_is (getAttribute ka (js "ttm:role")) "x-roman")]; split; reflexivity.
  - pose proof (cw_only_uid (NElem kn ka kk) s) as (Hl&_&_).
    run. simpl in Hl. destruct a as [w|].
    + pose proof (matchRoman_state avail w s0) as (Hm&_). run. simpl in *.
      split; [congruence|reflexivity].
    + split; [exact Hl|reflexivity].
Qed.

Lemma step_bg rec avail key k line hb s :
  is_role_span "x-bg" k = true ->
  line_step parseTimespan Number innerHTML rec avail key k (line, hb) s
  = ((line, true), snd (rec k true (l_isDuet line) key s)).
Proof.
  unfold line_step, is_role_span. destruct k as [t|t|t|kn ka kk]; try discriminate.
  intros H. apply andb_prop in H as [H1 H2]. rewrite H1, H2.
  unfold bind, ret. destruct (rec _ _ _ _ s). reflexivity.
Qed.

Lemma step_lines rec avail key k acc s :
  (is_elem k = true -> forall b d key' s0,
     exists B, B <> [] /\ st_lines (snd (rec k b d key' s0)) = st_lines s0 ++ B) ->
  let r := line_step parseTimespan Number innerHTML rec avail key k acc s in
  exists B, st_lines (snd r) = st_lines s ++ B /\ (snd (fst r) = true -> snd acc = true \/ B <> []).
Proof.
  intros Hrec. destruct (is_role_span "x-bg" k) eqn:Hbg.
  - destruct acc as [line hb]. rewrite (step_bg _ _ _ _ _ _ _ Hbg). simpl.
    assert (is_elem k = true) as Hk by (destruct k; try discriminate; reflexivity).
    destruct (Hrec Hk true (l_isDuet line) key s) as (B & HB & HL).
    exists B. split; [exact HL|]. intros _. right. exact HB.
  - destruct (step_no_bg rec avail key k acc s Hbg) as [HL HH].
    exists []. rewrite app_nil_r. split; [exact HL|]. intros Ht. left. congruence.
Qed.

Lemma loop_frame rec avail key kids : forall acc s,
  same_frame (fst (fst (LOOP rec avail key kids acc s))) (fst acc).
Proof.
  induction kids as [|k kids IH]; intros acc s; simpl.
  - repeat split.
  - unfold bind. run. eapply same_frame_trans; [apply IH|].
    pose proof (step_frame rec avail key k acc s) as Hs. rewrite E in Hs. exact Hs.
Qed.

Lemma loop_translated rec avail key kids : forall acc s,
  Forall (fun k => is_role_span "x-translation" k = false) kids ->
  l_translatedLyric (fst (fst (LOOP rec avail key kids acc s))) = l_translatedLyric (fst acc).
Proof.
  induction kids as [|k kids IH]; intros acc s Hk; simpl; [reflexivity|].
  inversion Hk as [|? ? Hk1 Hk2]; subst.
  unfold bind. run. rewrite IH by exact Hk2.
  pose proof (step_translated rec avail key k acc s Hk1) as Hs. rewrite E in Hs. exact Hs.
Qed.

Lemma loop_no_bg rec avail key kids : forall acc s,
  Forall (fun k => is_role_span "x-bg" k = false) kids ->
  let r := LOOP rec avail key kids acc s in
  st_lines (snd r) = st_lines s /\ snd (fst r) = snd acc.
Proof.
  induction kids as [|k kids IH]; intros acc s Hk; simpl; [split; reflexivity|].
  inversion Hk as [|? ? Hk1 Hk2]; subst.
  unfold bind. run.
  pose proof (step_no_bg rec avail key k acc s Hk1) as Hs. rewrite E in Hs. simpl in Hs.
  destruct Hs as [Hs1 Hs2]. destruct (IH a s0 Hk2) as [H1 H2]. split; congruence.
Qed.

Lemma loop_lines rec avail key kids : forall acc s,
  (forall k, In k kids -> is_elem k = true -> forall b d key' s0,
     exists B, B <> [] /\ st_lines (snd (rec k b d key' s0)) = st_lines s0 ++ B) ->
  let r := LOOP rec avail key kids acc s in
  exists B, st_lines (snd r) = st_lines s ++ B /\ (snd (fst r) = true -> snd acc = true \/ B <> []).
Proof.
  induction kids as [|k kids IH]; intros acc s Hrec; simpl.
  - exists []. rewrite app_nil_r. split; [reflexivity|]. intros H. left. exact H.
  - unfold bind. run.
    pose proof (step_lines rec avail key k acc s (Hrec k (or_introl eq_refl))) as Hs.
    rewrite E in Hs. simpl in Hs. destruct Hs as (B1 & HL1 & HH1).
    destruct (IH a s0 (fun k' Hin => Hrec k' (or_intror Hin))) as (B2 & HL2 & HH2).
    exists (B1 ++ B2). rewrite HL2, HL1, app_assoc. split; [reflexivity|].
    intros Ht. destruct (HH2 Ht) as [Ha|Hne].
    + destruct (HH1 Ha) as [Hb|Hne1]; [left; exact Hb|right].
      intros Hnil. apply app_eq_nil in Hnil as [? _]. contradiction.
    + right. intros Hnil. apply app_eq_nil in Hnil as [_ ?]. contradiction.
Qed.

Lemma loop_app rec avail key l1 l2 : forall acc s,
  LOOP rec avail key (l1 ++ l2) acc s
  = let '(acc', s') := LOOP rec avail key l1 acc s in LOOP rec avail key l2 acc' s'.
Proof.
  induction l1 as [|k l1 IH]; intros acc s; simpl; [reflexivity|].
  unfold bind. run. rewrite IH, E0. reflexivity.
Qed.

(** The ordering discipline at the end of [parseLineElement]: after a loop
    that appended [B] (non-empty when [haveBg]), the line lands after all of
    [B] but its last line. *)
Lemma order_lines (haveBg : bool) (line4 : LyricLine) (s3 : St) (L B : list LyricLine) :
  st_lines s3 = L ++ B -> (haveBg = true -> B <> []) ->
  let s' := snd (push_in_order haveBg line4 s3) in
  exists pre post, st_lines s' = L ++ pre ++ line4 :: post
    /\ (post = [] \/ exists b, post = [b]) /\ (haveBg = false -> pre = B /\ post = []).
Proof.
  intros HL HB. unfold push_in_order. destruct haveBg.
  - destruct (exists_last (HB eq_refl)) as (B' & b & ->).
    exists B', [b]. unfold bind, pop_line, push_line, ret; simpl.
    rewrite HL, app_assoc, last_snoc, removelast_last. simpl.
    split; [rewrite <- !app_assoc; reflexivity|].
    split; [right; eauto|discriminate].
  - exists B, []. unfold push_line; simpl. rewrite HL, <- app_assoc.
    split; [reflexivity|]. split; [left; reflexivity|auto].
Qed.

(** [parseLineElement] on an element: draw the id, copy the pool into a
    fresh array, run the loop, finish and push the line. *)
Lemma ple_elem ctx n attrs kids isBG isDuet pk s :
  PLE ctx (NElem n attrs kids) isBG isDuet pk s =
  let src := match source_roman ctx isBG (line_key attrs isBG pk) with
             | Some l => default [] (st_heap s !! l)
             | None => []
             end in
  let s2 := mkSt (st_lines s) (S (st_uid s)) (<[st_next s := src]> (st_heap s)) (S (st_next s)) in
  let r := LOOP (PLE ctx) (st_next s) (line_key attrs isBG pk) kids
             (line_init parseTimespan ctx attrs isBG isDuet pk (st_uid s), false) s2 in
  push_in_order (snd (fst r)) (finish_line (explicit_timing attrs) (fst (fst r))) (snd r).
Proof.
  cbn [parseLineElement]. cbv beta iota zeta delta [bind uid alloc load ret].
  destruct (source_roman ctx isBG (line_key attrs isBG pk)); cbv beta iota zeta;
    cbn [st_next st_lines st_uid st_heap];
    (match goal with |- context [LOOP ?r ?a ?k ?l ?acc ?st] => destruct (LOOP r a k l acc st) as [[l2 hb] s3] end);
    reflexivity.
Qed.

(** Every line element appends at least one line, and only appends. *)
Lemma ple_appends ctx el : is_elem el = true -> forall isBG isDuet pk s,
  exists B, B <> [] /\ st_lines (snd (PLE ctx el isBG isDuet pk s)) = st_lines s ++ B.
Proof.
  induction el as [t|t|t|n attrs kids IHk] using node_ind'; try discriminate.
  intros _ isBG isDuet pk s. rewrite ple_elem. cbn zeta.
  match goal with |- context [LOOP ?r ?a ?k ?l ?acc ?st] =>
    destruct (loop_lines r a k l acc st) as (B & HL & HH) end.
  { intros k Hin Hk b d key' s0. rewrite List.Forall_forall in IHk. exact (IHk k Hin Hk b d key' s0). }
  cbn [snd] in HH.
  edestruct order_lines as (pre & post & Hs & _ & _); [exact HL| |].
  { intros Hb. destruct (HH Hb) as [Hf|Hne]; [discriminate|exact Hne]. }
  exists (pre ++ finish_line (explicit_timing attrs) (fst (fst (LOOP (PLE ctx) (st_next s)
    (line_key attrs isBG pk) kids (line_init parseTimespan ctx attrs isBG isDuet pk (st_uid s), false)
    (mkSt (st_lines s) (S (st_uid s)) (<[st_next s := match source_roman ctx isBG (line_key attrs isBG pk) with
             | Some l => default [] (st_heap s !! l) | None => [] end]> (st_heap s)) (S (st_next s)))))) :: post).
  split; [destruct pre; discriminate|exact Hs].
Qed.

(** The state after the prologue of [parseLineElement] (id drawn, pool
    copied into a fresh array), and the run of the child loop from it. *)
Definition entry_state (ctx : Ctx) (attrs : list attr) (isBG : bool) (pk : option jsstr) (s : St) : St :=
  mkSt (st_lines s) (S (st_uid s))
    (<[st_next s := match source_roman ctx isBG (line_key attrs isBG pk) with
                    | Some l => default [] (st_heap s !! l)
                    | None => []
                    end]> (st_heap s)) (S (st_next s)).

Definition line_run (ctx : Ctx) (attrs : list attr) (kids : list node) (isBG isDuet : bool)
    (pk : option jsstr) (s : St) : LyricLine * bool * St :=
  LOOP (PLE ctx) (st_next s) (line_key attrs isBG pk) kids
    (line_init parseTimespan ctx attrs isBG isDuet pk (st_uid s), false)
    (entry_state ctx attrs isBG pk s).

Lemma ple_run ctx n attrs kids isBG isDuet pk s :
  PLE ctx (NElem n attrs kids) isBG isDuet pk s =
  let r := line_run ctx attrs kids isBG isDuet pk s in
  push_in_order (snd (fst r)) (finish_line (explicit_timing attrs) (fst (fst r))) (snd r).
Proof. rewrite ple_elem. reflexivity. Qed.

Lemma finish_line_id e l : l_id (finish_line e l) = l_id l.
Proof. destruct l as [? ? ? ? bg]. unfold finish_line. destruct e, bg; reflexivity. Qed.

Lemma finish_line_isBG e l : l_isBG (finish_line e l) = l_isBG l.
Proof. destruct l as [? ? ? ? bg]. unfold finish_line. destruct e, bg; reflexivity. Qed.

Lemma finish_line_isDuet e l : l_isDuet (finish_line e l) = l_isDuet l.
Proof. destruct l as [? ? ? ? bg]. unfold finish_line. destruct e, bg; reflexivity. Qed.

Lemma finish_line_translated e l : l_translatedLyric (finish_line e l) = l_translatedLyric l.
Proof. destruct l as [? ? ? ? bg]. unfold finish_line. destruct e, bg; reflexivity. Qed.

Lemma finish_line_explicit l :
  l_startTime (finish_line true l) = l_startTime l /\ l_endTime (finish_line true l) = l_endTime l.
Proof. destruct l as [? ? ? ? bg]. unfold finish_line. destruct bg; split; reflexivity. Qed.

Lemma line_init_frame ctx attrs isBG isDuet pk id :
  let l := line_init parseTimespan ctx attrs isBG isDuet pk id in
  l_id l = id /\ l_isBG l = isBG /\
  l_startTime l = (if explicit_timing attrs
                   then Num (parseTimespan (default [] (getAttribute attrs (js "begin")))) else Num 0) /\
  l_endTime l = (if explicit_timing attrs
                 then Num (parseTimespan (default [] (getAttribute attrs (js "end")))) else Num 0).
Proof.
  unfold line_init. cbv zeta.
  destruct (line_key attrs isBG pk) as [k|]; [destruct (truthy k)|]; repeat split.
Qed.

Lemma line_init_translated ctx attrs isBG isDuet pk id k :
  line_key attrs isBG pk = Some k -> truthy k = true ->
  l_translatedLyric (line_init parseTimespan ctx attrs isBG isDuet pk id)
  = line_translation ctx isBG k.
Proof. intros Hk Ht. unfold line_init. rewrite Hk, Ht. reflexivity. Qed.

(** Where the line of an element lands: after the lines already there and
    the lines its background children appended but the last one. *)
Lemma ple_output ctx n attrs kids isBG isDuet pk s :
  let r := line_run ctx attrs kids isBG isDuet pk s in
  exists pre post,
    st_lines (snd (PLE ctx (NElem n attrs kids) isBG isDuet pk s))
      = st_lines s ++ pre ++ finish_line (explicit_timing attrs) (fst (fst r)) :: post.
Proof.
  cbv zeta. rewrite ple_run. cbv zeta. unfold line_run.
  match goal with |- context [LOOP ?r ?a ?k ?l ?acc ?st] =>
    destruct (loop_lines r a k l acc st) as (B & HL & HH) end.
  { intros k Hin Hk b d key' s0. apply ple_appends. exact Hk. }
  cbn [snd] in HH.
  edestruct order_lines as (pre & post & Hs & _ & _); [exact HL| |].
  { intros Hb. destruct (HH Hb) as [Hf|Hne]; [discriminate|exact Hne]. }
  exists pre, post. exact Hs.
Qed.

Lemma run_frame ctx attrs kids isBG isDuet pk s :
  same_frame (fst (fst (line_run ctx attrs kids isBG isDuet pk s)))
             (line_init parseTimespan ctx attrs isBG isDuet pk (st_uid s)).
Proof. apply loop_frame. Qed.

Lemma noBg_Forall kids :
  forallb (fun k => negb (is_role_span "x-bg" k)) kids = true ->
  Forall (fun k => is_role_span "x-bg" k = false) kids.
Proof.
  induction kids as [|k kids IH]; simpl; intros H; [constructor|].
  apply andb_prop in H as [H1 H2]. constructor; [|exact (IH H2)].
  destruct (is_role_span "x-bg" k); [discriminate|reflexivity].
Qed.

(** A line element with no [x-bg] child appends exactly its own line. *)
Lemma ple_single ctx n attrs kids isBG isDuet pk s :
  forallb (fun k => negb (is_role_span "x-bg" k)) kids = true ->
  exists line, st_lines (snd (PLE ctx (NElem n attrs kids) isBG isDuet pk s)) = st_lines s ++ [line]
    /\ l_id line = st_uid s /\ l_isBG line = isBG.
Proof.
  intros Hk. rewrite ple_run. cbv zeta.
  pose proof (run_frame ctx attrs kids isBG isDuet pk s) as (Hid & _ & _ & HbG & _).
  pose proof (line_init_frame ctx attrs isBG isDuet pk (st_uid s)) as (Hid0 & HbG0 & _).
  unfold line_run in *.
  destruct (loop_no_bg (PLE ctx) (st_next s) (line_key attrs isBG pk) kids
              (line_init parseTimespan ctx attrs isBG isDuet pk (st_uid s), false)
              (entry_state ctx attrs isBG pk s) (noBg_Forall kids Hk)) as [HL HH].
  rewrite HH. cbn [snd push_in_order push_line].
  eexists. split; [rewrite HL; reflexivity|].
  rewrite finish_line_id, finish_line_isBG. split; congruence.
Qed.

Lemma push_in_order_bg line4 s3 L b :
  st_lines s3 = L ++ [b] -> st_lines (snd (push_in_order true line4 s3)) = L ++ [line4; b].
Proof.
  intros HL. unfold push_in_order, bind, pop_line, push_line, ret; simpl.
  rewrite HL, last_snoc, removelast_last. simpl. rewrite <- ?app_assoc. reflexivity.
Qed.

(** A loop over children with exactly one [x-bg] span, whose recursive call
    appends one line. *)
Lemma loop_one_bg rec avail key k1 bgEl k2 line0 hb s :
  Forall (fun k => is_role_span "x-bg" k = false) k1 ->
  Forall (fun k => is_role_span "x-bg" k = false) k2 ->
  is_role_span "x-bg" bgEl = true ->
  (forall b d key' s0, exists line, st_lines (snd (rec bgEl b d key' s0)) = st_lines s0 ++ [line]
                                    /\ l_isBG line = b) ->
  let r := LOOP rec avail key (k1 ++ bgEl :: k2) (line0, hb) s in
  snd (fst r) = true /\
  exists bg s1, st_lines (snd r) = st_lines s ++ [bg] /\ l_isBG bg = true /\
    st_lines (snd (rec bgEl true (l_isDuet line0) key s1)) = st_lines s1 ++ [bg].
Proof.
  intros H1 H2 Hb Hrec. cbv zeta. rewrite loop_app.
  pose proof (loop_frame rec avail key k1 (line0, hb) s) as (_&_&_&_&Hd).
  destruct (loop_no_bg rec avail key k1 (line0, hb) s H1) as [HL1 _].
  destruct (LOOP rec avail key k1 (line0, hb) s) as [[line1 hb1] s1]. simpl in HL1, Hd.
  assert (E : LOOP rec avail key (bgEl :: k2) (line1, hb1) s1
              = LOOP rec avail key k2 (line1, true) (snd (rec bgEl true (l_isDuet line1) key s1))).
  { cbn [line_loop]. unfold bind at 1. rewrite step_bg by exact Hb. reflexivity. }
  cbn beta iota. rewrite E.
  destruct (Hrec true (l_isDuet line1) key s1) as (bg & HLb & Hbg).
  destruct (loop_no_bg rec avail key k2 (line1, true) (snd (rec bgEl true (l_isDuet line1) key s1)) H2)
    as [HL2 HH2].
  split; [exact HH2|].
  exists bg, s1. split; [rewrite HL2, HLb, HL1; reflexivity|]. split; [exact Hbg|].
  rewrite <- Hd. exact HLb.
Qed.

(** With [begin] and [end] both non-empty, the line keeps their decoded
    values, whatever its children. *)
Lemma explicit_output ctx n attrs kids isBG isDuet pk s b e :
  getAttribute attrs (js "begin") = Some b -> truthy b = true ->
  getAttribute attrs (js "end") = Some e -> truthy e = true ->
  exists pre post line,
    st_lines (snd (PLE ctx (NElem n attrs kids) isBG isDuet pk s)) = st_lines s ++ pre ++ line :: post
    /\ l_id line = st_uid s /\ l_isBG line = isBG
    /\ l_startTime line = Num (parseTimespan b) /\ l_endTime line = Num (parseTimespan e).
Proof.
  intros Hb Htb He Hte.
  assert (Hx : explicit_timing attrs = true) by (unfold explicit_timing; rewrite Hb, He; simpl; rewrite Htb, Hte; reflexivity).
  destruct (ple_output ctx n attrs kids isBG isDuet pk s) as (pre & post & H).
  exists pre, post, (finish_line (explicit_timing attrs)
                       (fst (fst (line_run ctx attrs kids isBG isDuet pk s)))).
  split; [exact H|].
  pose proof (run_frame ctx attrs kids isBG isDuet pk s) as (Hid & Hst & Hen & HbG & _).
  pose proof (line_init_frame ctx attrs isBG isDuet pk (st_uid s)) as (Hid0 & HbG0 & Hst0 & Hen0).
  rewrite Hx in Hst0, Hen0 |- *. rewrite Hb in Hst0. rewrite He in Hen0. simpl in Hst0, Hen0.
  destruct (finish_line_explicit (fst (fst (line_run ctx attrs kids isBG isDuet pk s)))) as [Hs1 He1].
  rewrite finish_line_id, finish_line_isBG, Hs1, He1. repeat split; congruence.
Qed.

(** With a non-empty metadata key and no [x-translation] child, the line's
    translation is the one looked up for the key. *)
Lemma translated_output ctx n attrs kids isBG isDuet pk s k :
  line_key attrs isBG pk = Some k -> truthy k = true ->
  Forall (fun c => is_role_span "x-translation" c = false) kids ->
  exists pre post line,
    st_lines (snd (PLE ctx (NElem n attrs kids) isBG isDuet pk s)) = st_lines s ++ pre ++ line :: post
    /\ l_id line = st_uid s /\ l_translatedLyric line = line_translation ctx isBG k.
Proof.
  intros Hk Ht Hc.
  destruct (ple_output ctx n attrs kids isBG isDuet pk s) as (pre & post & H).
  eexists pre, post, _. split; [exact H|].
  pose proof (run_frame ctx attrs kids isBG isDuet pk s) as (Hid & _).
  pose proof (line_init_frame ctx attrs isBG isDuet pk (st_uid s)) as (Hid0 & _).
  rewrite finish_line_id, finish_line_translated. split; [congruence|].
  unfold line_run. rewrite loop_translated by exact Hc. simpl.
  apply line_init_translated; assumption.
Qed.

(** The heap below [lo] is left as it was, and the allocator only grows. *)
Definition keeps (lo : nat) (s s' : St) : Prop :=
  (st_next s <= st_next s')%nat /\ forall l, (l < lo)%nat -> st_heap s' !! l = st_heap s !! l.

Lemma keeps_refl lo s : keeps lo s s.
Proof. split; [lia|reflexivity]. Qed.

Lemma keeps_trans lo s1 s2 s3 : keeps lo s1 s2 -> keeps lo s2 s3 -> keeps lo s1 s3.
Proof.
  intros [H1 H2] [H3 H4]. split; [lia|]. intros l Hl. rewrite H4, H2 by exact Hl. reflexivity.
Qed.

Lemma keeps_weaken lo lo' s s' : (lo <= lo')%nat -> keeps lo' s s' -> keeps lo s s'.
Proof. intros Hle [H1 H2]. split; [exact H1|]. intros l Hl. apply H2. lia. Qed.

Lemma step_keeps rec avail key k acc s :
  (forall b d key' s0, keeps (st_next s0) s0 (snd (rec k b d key' s0))) ->
  (avail <= st_next s)%nat ->
  keeps avail s (snd (line_step parseTimespan Number innerHTML rec avail key k acc s)).
Proof.
  intros Hrec Ha. destruct acc as [line hb]. unfold line_step.
  destruct k as [t|t|t|kn ka kk]; unfold bind, ret, uid; try apply keeps_refl.
  { split; simpl; [lia|reflexivity]. }
  destruct (jsstr_eqb kn (js "span") && otruthy (getAttribute ka (js "ttm:role"))).
  - destruct (opt_is (getAttribute ka (js "ttm:role")) "x-bg").
    + pose proof (Hrec true (l_isDuet line) key s) as Hk. run. simpl in *.
      exact (keeps_weaken _ _ _ _ Ha Hk).
    + destruct (opt_is (getAttribute ka (js "ttm:role")) "x-translation");
        [|destruct (opt_is (getAttribute ka (js "ttm:role")) "x-roman")]; apply keeps_refl.
  - pose proof (cw_only_uid (NElem kn ka kk) s) as (_ & Hh & Hn).
    run. simpl in Hh, Hn. destruct a as [w|]; [|simpl; split; [lia|intros; rewrite Hh; reflexivity]].
    pose proof (matchRoman_state avail w s0) as (_ & Hn' & _ & Hh'). run. simpl in Hn', Hh' |- *.
    split; [lia|]. intros l Hl. rewrite Hh' by lia. rewrite Hh. reflexivity.
Qed.

Lemma loop_keeps rec avail key kids :
  (forall k, In k kids -> forall b d key' s0, keeps (st_next s0) s0 (snd (rec k b d key' s0))) ->
  forall acc s, (avail <= st_next s)%nat ->
  keeps avail s (snd (LOOP rec avail key kids acc s)).
Proof.
  intros Hrec. induction kids as [|k kids IH]; intros acc s Ha; simpl; [apply keeps_refl|].
  unfold bind.
  pose proof (step_keeps rec avail key k acc s (Hrec k (or_introl eq_refl)) Ha) as Hs.
  run. simpl in Hs. eapply keeps_trans; [exact Hs|].
  apply IH; [intros k' Hin; apply Hrec; right; exact Hin|]. destruct Hs as [Hs _]. lia.
Qed.

Lemma push_in_order_heap hb line4 s :
  st_heap (snd (push_in_order hb line4 s)) = st_heap s /\
  st_next (snd (push_in_order hb line4 s)) = st_next s.
Proof.
  unfold push_in_order, bind, pop_line, push_line, ret.
  destruct hb; simpl; [|split; reflexivity].
  destruct (last (st_lines s)); simpl; split; reflexivity.
Qed.

(** [parseLineElement] writes only arrays it allocated itself. *)
Lemma ple_keeps ctx el : forall isBG isDuet pk s,
  keeps (st_next s) s (snd (PLE ctx el isBG isDuet pk s)).
Proof.
  induction el as [t|t|t|n attrs kids IHk] using node_ind'; intros isBG isDuet pk s;
    try apply keeps_refl.
  rewrite ple_run. cbv zeta.
  destruct (push_in_order_heap
              (snd (fst (line_run ctx attrs kids isBG isDuet pk s)))
              (finish_line (explicit_timing attrs) (fst (fst (line_run ctx attrs kids isBG isDuet pk s))))
              (snd (line_run ctx attrs kids isBG isDuet pk s))) as [Hh Hn].
  unfold line_run in *. rewrite List.Forall_forall in IHk.
  destruct (loop_keeps (PLE ctx) (st_next s) (line_key attrs isBG pk) kids
              (fun k Hin b d key' s0 => IHk k Hin b d key' s0)
              (line_init parseTimespan ctx attrs isBG isDuet pk (st_uid s), false)
              (entry_state ctx attrs isBG pk s) ltac:(simpl; lia)) as [H1 H2].
  split; [rewrite Hn; simpl in H1; lia|].
  intros l Hl. rewrite Hh, H2 by exact Hl. simpl. apply lookup_insert_ne. lia.
Qed.

(** A child that is not a role span and that the word builder turns down
    leaves the loop as if it were not there. *)
Lemma step_skip rec avail key kn ka kk acc s :
  negb (jsstr_eqb kn (js "span") && otruthy (getAttribute ka (js "ttm:role"))) = true ->
  CW (NElem kn ka kk) s = (None, s) ->
  line_step parseTimespan Number innerHTML rec avail key (NElem kn ka kk) acc s = (acc, s).
Proof.
  intros Hr Hc. destruct acc as [line hb]. unfold line_step.
  destruct (jsstr_eqb kn (js "span") && otruthy (getAttribute ka (js "ttm:role"))); [discriminate|].
  unfold bind. rewrite Hc. reflexivity.
Qed.

Lemma loop_skip rec avail key k1 kn ka kk k2 acc s :
  negb (jsstr_eqb kn (js "span") && otruthy (getAttribute ka (js "ttm:role"))) = true ->
  (forall s', CW (NElem kn ka kk) s' = (None, s')) ->
  LOOP rec avail key (k1 ++ NElem kn ka kk :: k2) acc s = LOOP rec avail key (k1 ++ k2) acc s.
Proof.
  intros Hr Hc. rewrite !loop_app.
  destruct (LOOP rec avail key k1 acc s) as [acc1 s1]. cbn [line_loop]. unfold bind at 1.
  rewrite step_skip by auto. reflexivity.
Qed.

(** The word builder turns down a span that is no ruby container and lacks
    a non-empty [begin] or [end]. *)
Lemma cw_none kn ka kk s :
  opt_is (sp_ruby (parseSpan (NElem kn ka kk))) "container" = false ->
  negb (otruthy (getAttr ka (js "begin"))) || negb (otruthy (getAttr ka (js "end"))) = true ->
  CW (NElem kn ka kk) s = (None, s).
Proof.
  intros Hc Hb. unfold createWordFromSpanElement. cbv beta iota zeta.
  rewrite Hc, Hb. reflexivity.
Qed.

(** The word builder on a ruby container. *)
Lemma cw_container n attrs kids s :
  opt_is (sp_ruby (parseSpan (NElem n attrs kids))) "container" = true ->
  let cb := getAttr attrs (js "begin") in
  let ce := getAttr attrs (js "end") in
  let rubyWords :=
    map (fun r => mkWordBase (flattenSpanInnerText r)
                    (default (default (Num 0) (opt_timespan parseTimespan cb)) (opt_timespan parseTimespan (sp_begin r)))
                    (default (default (Num 0) (opt_timespan parseTimespan ce)) (opt_timespan parseTimespan (sp_end r))))
      (collectRubyTextSpans (parseSpan (NElem n attrs kids))) in
  exists w s', CW (NElem n attrs kids) s = (Some w, s')
    /\ w_startTime w = default (fst (computeWordTiming rubyWords)) (opt_timespan parseTimespan cb)
    /\ w_endTime w = default (snd (computeWordTiming rubyWords)) (opt_timespan parseTimespan ce)
    /\ w_ruby w = (if (0 <? length rubyWords)%nat then Some rubyWords else None).
Proof.
  intros Hc. unfold createWordFromSpanElement. cbv beta iota zeta. rewrite Hc.
  destruct (computeWordTiming _) as [a b]. unfold bind, uid, ret.
  eexists _, _. split; [reflexivity|]. repeat split.
Qed.

Lemma segment_time ts own container :
  default (default (Num 0) (opt_timespan ts container)) (opt_timespan ts own)
  = Num (ruby_segment_time_spec ts own container).
Proof.
  unfold ruby_segment_time_spec.
  destruct own as [o|]; [destruct (truthy o) eqn:Ho|]; simpl; rewrite ?Ho; try reflexivity;
    (destruct container as [c|]; [destruct (truthy c) eqn:Hc|]; simpl; rewrite ?Hc; reflexivity).
Qed.

Lemma container_time ts container (v : number) :
  default v (opt_timespan ts container)
  = if otruthy container then Num (ts (default [] container)) else v.
Proof. destruct container as [c|]; simpl; [destruct (truthy c)|]; reflexivity. Qed.

Lemma fold_math_min {A} (mk : A -> LyricWordBase) (z : A -> Z) (l : list A) :
  (forall r, wb_startTime (mk r) = Num (z r)) ->
  forall a, fold_left (fun pv cv => math_min pv (wb_startTime cv)) (map mk l) (Num a)
            = Num (fold_left Z.min (map z l) a).
Proof.
  intros Hz. induction l as [|x l IH]; intros a; simpl; [reflexivity|].
  rewrite Hz. simpl. apply IH.
Qed.

Lemma fold_math_max {A} (mk : A -> LyricWordBase) (z : A -> Z) (l : list A) :
  (forall r, wb_endTime (mk r) = Num (z r)) ->
  forall a, fold_left (fun pv cv => math_max pv (wb_endTime cv)) (map mk l) (Num a)
            = Num (fold_left Z.max (map z l) a).
Proof.
  intros Hz. induction l as [|x l IH]; intros a; simpl; [reflexivity|].
  rewrite Hz. simpl. apply IH.
Qed.

Lemma filter_map_comm {A B} (p : B -> bool) (f : A -> B) (l : list A) :
  filter p (map f l) = map f (filter (fun x => p (f x)) l).
Proof.
  induction l as [|x l IH]; [reflexivity|]. cbn [map]. rewrite !filter_cons.
  repeat case_decide; cbn [map]; try tauto; rewrite IH; reflexivity.
Qed.

Lemma map_snd_filter {A} (t : A -> jsstr) (z : A -> Z) (l : list A) :
  map snd (filter (fun p => nonblank p.1) (map (fun r => (t r, z r)) l))
  = map z (filter (fun r => nonblank (t r)) l).
Proof.
  induction l as [|x l IH]; [reflexivity|]. cbn [map]. rewrite !filter_cons. cbn [fst].
  repeat case_decide; cbn [map snd]; try tauto; rewrite IH; reflexivity.
Qed.

(** [computeWordTiming] over words with finite, non-negative end times. *)
Lemma cwt_map {A} (mk : A -> LyricWordBase) (zs ze : A -> Z) (l : list A) :
  (forall r, wb_startTime (mk r) = Num (zs r)) ->
  (forall r, wb_endTime (mk r) = Num (ze r) /\ 0 <= ze r) ->
  computeWordTiming (map mk l) =
  (Num (match map zs (filter (fun r => nonblank (wb_word (mk r))) l) with
        | [] => 0 | x :: xs => fold_left Z.min xs x end),
   Num (match map ze (filter (fun r => nonblank (wb_word (mk r))) l) with
        | [] => 0 | x :: xs => fold_left Z.max xs x end)).
Proof.
  intros Hs He. unfold computeWordTiming. cbv zeta.
  rewrite filter_map_comm.
  destruct (filter (fun r => nonblank (wb_word (mk r))) l) as [|x l']; simpl; [reflexivity|].
  rewrite Hs. destruct (He x) as [Hx Hnn]. rewrite Hx. simpl.
  rewrite (fold_math_min mk zs l' Hs).
  rewrite (fold_math_max mk ze l' (fun r => proj1 (He r))).
  rewrite Z.max_r by exact Hnn. reflexivity.
Qed.

Lemma segment_time_nonneg ts own container :
  (forall t, 0 <= ts t) -> 0 <= ruby_segment_time_spec ts own container.
Proof.
  intros H. unfold ruby_segment_time_spec.
  destruct (otruthy own); [apply H|]. destruct (otruthy container); [apply H|lia].
Qed.

(** The ruby timing of a container word, for a codec with non-negative
    results. *)
Lemma ruby_timing (Hts : forall t, 0 <= parseTimespan t) n attrs kids s :
  opt_is (sp_ruby (parseSpan (NElem n attrs kids))) "container" = true ->
  let rs := collectRubyTextSpans (parseSpan (NElem n attrs kids)) in
  let cb := getAttr attrs (js "begin") in
  let ce := getAttr attrs (js "end") in
  exists w, fst (CW (NElem n attrs kids) s) = Some w /\
    map (fun b => (wb_word b, wb_startTime b, wb_endTime b)) (default [] (w_ruby w))
      = map (fun r => (flattenSpanInnerText r,
                       Num (ruby_segment_time_spec parseTimespan (sp_begin r) cb),
                       Num (ruby_segment_time_spec parseTimespan (sp_end r) ce))) rs /\
    w_startTime w = Num (ruby_word_time_spec parseTimespan cb Z.min
      (map (fun r => (flattenSpanInnerText r, ruby_segment_time_spec parseTimespan (sp_begin r) cb)) rs)) /\
    w_endTime w = Num (ruby_word_time_spec parseTimespan ce Z.max
      (map (fun r => (flattenSpanInnerText r, ruby_segment_time_spec parseTimespan (sp_end r) ce)) rs)).
Proof.
  intros Hc. cbv zeta.
  destruct (cw_container n attrs kids s Hc) as (w & s' & Hcw & Hst & Hen & Hr). cbv zeta in Hst, Hen, Hr.
  exists w. rewrite Hcw. split; [reflexivity|].
  rewrite (cwt_map _ (fun r => ruby_segment_time_spec parseTimespan (sp_begin r) (getAttr attrs (js "begin")))
                     (fun r => ruby_segment_time_spec parseTimespan (sp_end r) (getAttr attrs (js "end"))))
    in Hst, Hen.
  2, 4: intros r; simpl; apply segment_time.
  2, 3: intros r; simpl; split; [apply segment_time|apply segment_time_nonneg, Hts].
  cbn [fst snd] in Hst, Hen. rewrite container_time in Hst, Hen.
  unfold ruby_word_time_spec. rewrite !map_snd_filter.
  split; [|split].
  - rewrite Hr. destruct (0 <? length _)%nat eqn:El; cbn [default].
    + unfold id. rewrite map_map. apply map_ext. intros r. cbn [wb_word wb_startTime wb_endTime].
      rewrite !segment_time. reflexivity.
    + destruct (collectRubyTextSpans (parseSpan (NElem n attrs kids))); [reflexivity|discriminate].
  - rewrite Hst. destruct (otruthy (getAttr attrs (js "begin"))); reflexivity.
  - rewrite Hen. destruct (otruthy (getAttr attrs (js "end"))); reflexivity.
Qed.

End Proofs.

(** A timed translation of a key removes the plain entry of that key and
    keeps one of its own, whatever the other [text] elements hold. *)
Lemma extract_timed_wins root plain K textEl i :
  qsa_child root translationSel !! i = Some textEl ->
  getAttribute (attrs_of textEl) (js "for") = Some K -> truthy K = true ->
  is_timed textEl = true ->
  (extract_timed root plain).2 !! K = None /\ is_Some ((extract_timed root plain).1 !! K).
Proof.
  intros Hi Hf Ht Htm. apply list_elem_of_lookup_2, list_elem_of_In in Hi.
  unfold extract_timed.
  match goal with |- context [fold_left ?F _ _] => set (f := F) end.
  set (Inv := fun acc : gmap jsstr LineMetadata * gmap jsstr LineMetadata =>
                acc.2 !! K = None /\ is_Some (acc.1 !! K)).
  assert (Hstep : forall acc x, Inv acc -> Inv (f acc x)).
  { intros [timed tr] x [H1 H2]. unfold f, Inv in *. cbn [fst snd] in *.
    destruct (getAttribute (attrs_of x) (js "for")) as [key|]; [|split; assumption].
    destruct (truthy key); [|split; assumption].
    destruct (translation_texts x) as [main bg].
    destruct (is_timed x); [|split; assumption]. cbn [fst snd].
    split; [apply lookup_delete_None; right; exact H1|].
    apply lookup_insert_is_Some'. right. exact H2. }
  assert (Hkeep : forall l acc, Inv acc -> Inv (fold_left f l acc)).
  { induction l as [|x l IH]; intros acc Ha; simpl; [exact Ha|]. apply IH, Hstep, Ha. }
  change (Inv (fold_left f (qsa_child root translationSel) (∅, plain))).
  revert Hi. generalize (∅ : gmap jsstr LineMetadata, plain).
  induction (qsa_child root translationSel) as [|x l IH]; intros acc Hin; [destruct Hin|].
  destruct Hin as [->|Hin]; simpl; [|apply IH, Hin].
  apply Hkeep. destruct acc as [timed tr]. unfold f, Inv. rewrite Hf, Ht.
  destruct (translation_texts textEl) as [main bg]. rewrite Htm. cbn [fst snd].
  split; [apply lookup_delete_eq|]. rewrite lookup_insert_eq. eexists; reflexivity.
Qed.

Lemma digit_nonneg c d : digit c = Some d -> 0 <= d.
Proof. unfold digit. destruct ((48 <=? c) && (c <=? 57)) eqn:E; intros H; [|discriminate].
  injection H as <-. apply andb_prop in E as [E _]. apply Z.leb_le in E. lia. Qed.

Lemma digits_val_nonneg s : forall acc v, 0 <= acc -> digits_val acc s = Some v -> 0 <= v.
Proof.
  induction s as [|c s IH]; intros acc v Ha H; simpl in H.
  - injection H as <-. exact Ha.
  - destruct (digit c) as [d|] eqn:Ed; [|discriminate]. simpl in H.
    pose proof (digit_nonneg c d Ed). apply (IH (acc * 10 + d) v); [lia|exact H].
Qed.

Lemma seconds_ms_nonneg s v : seconds_ms s = Some v -> 0 <= v.
Proof.
  unfold seconds_ms. destruct (split_on 46 s) as [|i [|f [|? ?]]]; try discriminate.
  - destruct (truthy i); [|discriminate].
    destruct (digits_val 0 i) as [iv|] eqn:Ei; simpl; intros H; [|discriminate].
    injection H as <-. pose proof (digits_val_nonneg i 0 iv ltac:(lia) Ei). lia.
  - destruct (truthy i && truthy f); [|discriminate].
    destruct (digits_val 0 i) as [iv|] eqn:Ei; simpl; [|discriminate].
    destruct (digits_val 0 f) as [fv0|]; simpl; [|discriminate].
    destruct (digits_val 0 (take 3 (f ++ [48; 48; 48]))) as [fv|] eqn:Ef; simpl; intros H; [|discriminate].
    injection H as <-.
    pose proof (digits_val_nonneg i 0 iv ltac:(lia) Ei).
    pose proof (digits_val_nonneg _ 0 fv ltac:(lia) Ef). lia.
Qed.

(** The codec model decodes to non-negative milliseconds. *)
Lemma parseTimespan_spec_nonneg t : 0 <= parseTimespan_spec t.
Proof.
  unfold parseTimespan_spec. cbv zeta.
  destruct (split_on 58 _) as [|a [|b [|c [|? ?]]]]; simpl; try lia.
  - destruct (seconds_ms a) eqn:E; simpl; [apply (seconds_ms_nonneg _ _ E)|lia].
  - destruct (digits_val 0 a) as [mv|] eqn:Ea; simpl; [|lia].
    destruct (seconds_ms b) as [sv|] eqn:Eb; simpl; [|lia].
    pose proof (digits_val_nonneg a 0 mv ltac:(lia) Ea). pose proof (seconds_ms_nonneg _ _ Eb). lia.
  - destruct (digits_val 0 a) as [hv|] eqn:Ea; simpl; [|lia].
    destruct (digits_val 0 b) as [mv|] eqn:Eb; simpl; [|lia].
    destruct (seconds_ms c) as [sv|] eqn:Ec; simpl; [|lia].
    pose proof (digits_val_nonneg a 0 hv ltac:(lia) Ea). pose proof (digits_val_nonneg b 0 mv ltac:(lia) Eb).
    pose proof (seconds_ms_nonneg _ _ Ec). lia.
Qed.

(* ------------------------------------------------------------------ *)
(** * The claims *)

Lemma find_index_first {A} (p : A -> bool) (l : list A) : forall i x,
  l !! i = Some x -> p x = true ->
  (forall j y, (j < i)%nat -> l !! j = Some y -> p y = false) ->
  find_index p l = Some i.
Proof.
  induction l as [|a l IH]; intros i x Hi Hp Hb; [discriminate|].
  destruct i as [|i]; simpl in *.
  - injection Hi as ->. rewrite Hp. reflexivity.
  - rewrite (Hb 0%nat a ltac:(lia) eq_refl).
    rewrite (IH i x Hi Hp); [reflexivity|].
    intros j y Hj Hy. apply (Hb (S j) y); [lia|exact Hy].
Qed.

Lemma find_index_none {A} (p : A -> bool) (l : list A) :
  (forall x, In x l -> p x = false) -> find_index p l = None.
Proof.
  induction l as [|a l IH]; intros H; [reflexivity|]. simpl.
  rewrite (H a (or_introl eq_refl)), IH; [reflexivity|]. intros x Hx. apply H. right. exact Hx.
Qed.

(** C1: the code diverges from the spec.  A line without explicit timing
    whose words are all whitespace does not get [startTime = 0]: the
    deferred timing of [parseLineElement] keeps the [Infinity] seed of its
    [min] reduction.  On [doc_bg_blank] the background line is timed
    ([+Infinity], [0]). *)
Theorem deferred_line_timing_keeps_infinity :
  map (fun l => (l_isBG l, l_startTime l, l_endTime l))
    (lyricLines (parseLyric parseTimespan_spec number0 innerHTML0 0 (WellFormed doc_bg_blank)))
  = [(false, Num 1000, Num 2000); (true, PosInf, Num 0)].
Proof. vm_compute. reflexivity. Qed.

(** C3: a main line element with exactly one [x-bg] child span (itself
    without [x-bg] children) appends exactly two lines: the main line (the
    id drawn first, not a background line) immediately followed by the
    background line, which is the line [parseLineElement] builds from that
    span with [isBG = true], the main line's duet flag and its key. *)
Theorem bg_line_follows_main ts Number innerHTML ctx n attrs k1 bgEl k2 isDuet pk s :
  is_role_span "x-bg" bgEl = true ->
  forallb (fun k => negb (is_role_span "x-bg" k)) (k1 ++ k2) = true ->
  forallb (fun k => negb (is_role_span "x-bg" k)) (kids_of bgEl) = true ->
  exists main bg,
    st_lines (snd (parseLineElement ts Number innerHTML ctx (NElem n attrs (k1 ++ bgEl :: k2))
                     false isDuet pk s)) = st_lines s ++ [main; bg]
    /\ l_id main = st_uid s /\ l_isBG main = false /\ l_isBG bg = true
    /\ exists s1, st_lines (snd (parseLineElement ts Number innerHTML ctx bgEl true (l_isDuet main)
                                   (getAttribute attrs (js "itunes:key")) s1)) = st_lines s1 ++ [bg].
Proof.
  intros Hb H12 Hbk.
  destruct bgEl as [| | |bn ba bk]; try discriminate. cbn [kids_of] in Hbk.
  rewrite forallb_app in H12. apply andb_prop in H12 as [H1 H2].
  rewrite ple_run. cbv zeta.
  pose proof (run_frame ts Number innerHTML ctx attrs (k1 ++ NElem bn ba bk :: k2) false isDuet pk s)
    as (Hid & _ & _ & HbG & Hdu).
  pose proof (line_init_frame ts ctx attrs false isDuet pk (st_uid s)) as (Hid0 & HbG0 & _).
  unfold line_run in *.
  destruct (loop_one_bg ts Number innerHTML (parseLineElement ts Number innerHTML ctx) (st_next s)
              (line_key attrs false pk) k1 (NElem bn ba bk) k2
              (line_init ts ctx attrs false isDuet pk (st_uid s)) false (entry_state ctx attrs false pk s)
              (noBg_Forall _ H1) (noBg_Forall _ H2) Hb)
    as [Hhb (bg & s1 & HL & HbgBG & Hrec)].
  { intros b d key' s0.
    destruct (ple_single ts Number innerHTML ctx bn ba bk b d key' s0 Hbk) as (line & HL & _ & HB).
    exists line. split; assumption. }
  rewrite Hhb.
  eexists _, bg. split; [apply push_in_order_bg; exact HL|].
  rewrite finish_line_id, finish_line_isBG, finish_line_isDuet.
  split; [congruence|]. split; [congruence|]. split; [exact HbgBG|].
  exists s1. rewrite Hdu. exact Hrec.
Qed.

Lemma bg_line_follows_main_witness :
  is_role_span "x-bg" (el "span" [("ttm:role", "x-bg")%string] [tx "(bg)"]) = true /\
  forallb (fun k => negb (is_role_span "x-bg" k)) ([tx "main"] ++ []) = true /\
  forallb (fun k => negb (is_role_span "x-bg" k)) (kids_of (el "span" [("ttm:role", "x-bg")%string] [tx "(bg)"])) = true /\
  exists main bg,
    st_lines (snd (parseLineElement parseTimespan_spec number0 innerHTML0 ctx0
                     (NElem (js "p") [] ([tx "main"] ++ el "span" [("ttm:role", "x-bg")%string] [tx "(bg)"] :: []))
                     false false None st0)) = st_lines st0 ++ [main; bg]
    /\ l_id main = st_uid st0 /\ l_isBG main = false /\ l_isBG bg = true
    /\ exists s1, st_lines (snd (parseLineElement parseTimespan_spec number0 innerHTML0 ctx0
                                   (el "span" [("ttm:role", "x-bg")%string] [tx "(bg)"]) true (l_isDuet main)
                                   (getAttribute [] (js "itunes:key")) s1)) = st_lines s1 ++ [bg].
Proof.
  split; [reflexivity|]. split; [reflexivity|]. split; [reflexivity|].
  apply (bg_line_follows_main parseTimespan_spec number0 innerHTML0 ctx0 (js "p") []
           [tx "main"] (el "span" [("ttm:role", "x-bg")%string] [tx "(bg)"]) [] false None st0);
    reflexivity.
Defined.

(** C4: each word is matched against the line's pool array by strict
    equality of both times.  When the first matching entry is at [i], the
    word takes its text and the array loses that entry (so no entry serves
    two words); when no entry matches, word and state are unchanged.  The
    word builder always produces [romanWord = ""], so an unmatched word
    keeps the empty string.  With the pool [{0,500,"a"}; {500,900,"b"}] and
    words timed (0,500), (500,900), (0,500), the words get ["a"], ["b"]
    and [""] and the pool ends empty; the same happens to a line of
    [doc_roman] through [parseLyric]. *)
Theorem roman_word_matching :
  (forall avail w s pool, st_heap s !! avail = Some pool ->
     let P := fun r => num_strict_eqb (r_startTime r) (w_startTime w)
                       && num_strict_eqb (r_endTime r) (w_endTime w) in
     (forall i r, pool !! i = Some r -> P r = true ->
        (forall j r', (j < i)%nat -> pool !! j = Some r' -> P r' = false) ->
        matchRoman avail w s
        = (set_romanWord w (r_text r),
           mkSt (st_lines s) (st_uid s) (<[avail := delete i pool]> (st_heap s)) (st_next s)))
     /\ ((forall r, In r pool -> P r = false) -> matchRoman avail w s = (w, s)))
  /\ (forall ts Number k s w s', createWordFromSpanElement ts Number k s = (Some w, s') ->
        w_romanWord w = [])
  /\ (let pool := [mkRoman (Num 0) (Num 500) (js "a"); mkRoman (Num 500) (Num 900) (js "b")] in
      let wd := fun a b => mkWord 0 (js "w") (Num a) (Num b) false (Num 0) [] None in
      let r := (w1 <- matchRoman 0 (wd 0 500) ;;
                w2 <- matchRoman 0 (wd 500 900) ;;
                w3 <- matchRoman 0 (wd 0 500) ;;
                ret [w1; w2; w3]) (mkSt [] 0 {[0%nat := pool]} 1) in
      map w_romanWord (fst r) = [js "a"; js "b"; []] /\ st_heap (snd r) !! 0%nat = Some [])
  /\ map (fun l => map w_romanWord (l_words l))
       (lyricLines (parseLyric parseTimespan_spec number0 innerHTML0 0 (WellFormed doc_roman)))
     = [[js "a"; js "b"; []]].
Proof.
  split; [|split; [|split]].
  - intros avail w s pool Hp. cbv zeta. split.
    + intros i r Hi Hr Hb. unfold matchRoman, bind, load, store, ret. rewrite Hp. cbn [default]. unfold id.
      assert (Hlen : (0 <? length pool)%nat = true).
      { apply Nat.ltb_lt. apply lookup_lt_Some in Hi. lia. }
      rewrite Hlen. rewrite (find_index_first _ pool i r Hi Hr Hb), Hi. reflexivity.
    + intros Hn. unfold matchRoman, bind, load, store, ret. rewrite Hp. cbn [default]. unfold id.
      rewrite (find_index_none _ pool Hn). destruct (0 <? length pool)%nat; reflexivity.
  - intros ts Number k s w s'. apply cw_romanWord.
  - vm_compute. split; reflexivity.
  - vm_compute. reflexivity.
Qed.

Lemma roman_word_matching_witness :
  let pool := [mkRoman (Num 0) (Num 500) (js "a"); mkRoman (Num 500) (Num 900) (js "b")] in
  let w := mkWord 0 (js "w") (Num 500) (Num 900) false (Num 0) [] None in
  st_heap (mkSt [] 0 {[0%nat := pool]} 1) !! 0%nat = Some pool /\
  pool !! 1%nat = Some (mkRoman (Num 500) (Num 900) (js "b")) /\
  matchRoman 0 w (mkSt [] 0 {[0%nat := pool]} 1)
  = (set_romanWord w (js "b"),
     mkSt [] 0 (<[0%nat := delete 1%nat pool]> {[0%nat := pool]}) 1).
Proof.
  cbv zeta. split; [reflexivity|]. split; [reflexivity|].
  destruct roman_word_matching as [HA _].
  destruct (HA 0%nat (mkWord 0 (js "w") (Num 500) (Num 900) false (Num 0) [] None)
              (mkSt [] 0 {[0%nat := [mkRoman (Num 0) (Num 500) (js "a"); mkRoman (Num 500) (Num 900) (js "b")]]} 1)
              [mkRoman (Num 0) (Num 500) (js "a"); mkRoman (Num 500) (Num 900) (js "b")])
    as [H1 _]; [vm_compute; reflexivity|].
  apply (H1 1%nat (mkRoman (Num 500) (Num 900) (js "b"))); [reflexivity|reflexivity|].
  intros j r' Hj Hr'. destruct j as [|j]; [|lia]. injection Hr' as <-. reflexivity.
Defined.

(** C5: when a translation [text] element for a non-empty key [K] is timed
    (non-empty text and a nested [span]), the plain map the lines read has
    no entry for [K] and the timed map has one.  A line whose metadata key
    is [K] and that has no [x-translation] child gets as [translatedLyric]
    the timed translation of [K], else the plain one, else [""]. *)
Theorem timed_translation_wins ts Number innerHTML root textEl i K lineRoman wordRoman agent
    n attrs kids isBG isDuet pk s :
  qsa_child root translationSel !! i = Some textEl ->
  getAttribute (attrs_of textEl) (js "for") = Some K -> truthy K = true ->
  is_timed textEl = true ->
  line_key attrs isBG pk = Some K ->
  forallb (fun c => negb (is_role_span "x-translation" c)) kids = true ->
  let timed := (extract_timed root (extract_translations root)).1 in
  let plain := (extract_timed root (extract_translations root)).2 in
  let ctx := mkCtx plain lineRoman wordRoman timed agent in
  plain !! K = None /\ is_Some (timed !! K) /\
  exists pre post line,
    st_lines (snd (parseLineElement ts Number innerHTML ctx (NElem n attrs kids) isBG isDuet pk s))
      = st_lines s ++ pre ++ line :: post
    /\ l_id line = st_uid s
    /\ l_translatedLyric line
       = default (default [] (resolve isBG (plain !! K))) (resolve isBG (timed !! K)).
Proof.
  intros Hi Hf Ht Htm Hk Hc. cbv zeta.
  destruct (extract_timed_wins root (extract_translations root) K textEl i Hi Hf Ht Htm) as [H1 H2].
  split; [exact H1|]. split; [exact H2|].
  refine (translated_output ts Number innerHTML (mkCtx _ lineRoman wordRoman _ agent)
            n attrs kids isBG isDuet pk s K Hk Ht _).
  clear -Hc. induction kids as [|k kids IH]; [constructor|].
  simpl in Hc. apply andb_prop in Hc as [Hc1 Hc2]. constructor; [|exact (IH Hc2)].
  destruct (is_role_span "x-translation" k); [discriminate|reflexivity].
Qed.

Lemma timed_translation_wins_witness :
  qsa_child doc_timed_translation translationSel !! 0%nat
    = Some (el "text" [("for", "L1")%string] [tx "Hello"; el "span" [("ttm:role", "x-bg")%string] [tx "(there)"]]) /\
  let timed := (extract_timed doc_timed_translation (extract_translations doc_timed_translation)).1 in
  let plain := (extract_timed doc_timed_translation (extract_translations doc_timed_translation)).2 in
  let ctx := mkCtx plain ∅ ∅ timed (js "v1") in
  plain !! js "L1" = None /\ is_Some (timed !! js "L1") /\
  exists pre post line,
    st_lines (snd (parseLineElement parseTimespan_spec number0 innerHTML0 ctx
                     (el "p" [("itunes:key", "L1")%string] [tx "hi"]) false false None st0))
      = st_lines st0 ++ pre ++ line :: post
    /\ l_id line = st_uid st0
    /\ l_translatedLyric line
       = default (default [] (resolve false (plain !! js "L1"))) (resolve false (timed !! js "L1")).
Proof.
  split; [vm_compute; reflexivity|].
  apply (timed_translation_wins parseTimespan_spec number0 innerHTML0 doc_timed_translation
           (el "text" [("for", "L1")%string] [tx "Hello"; el "span" [("ttm:role", "x-bg")%string] [tx "(there)"]])
           0%nat (js "L1") ∅ ∅ (js "v1") (js "p") [mkAttr (js "itunes:key") (js "L1")] [tx "hi"]
           false false None st0);
    vm_compute; reflexivity.
Defined.

(** C6: for a ruby container word and a codec with non-negative results,
    each [ruby="text"] segment is timed by its own [begin]/[end] if
    present, else the container's, else [0]; the word takes the container's
    [begin]/[end] if present, else the minimum start and maximum end over
    the segments with non-whitespace text, [0] when there is none.  The
    container [ruby_example] (1.0s to 2.0s, two untimed text segments)
    gives a word timed (1000, 2000) and two segments timed (1000, 2000). *)
Theorem ruby_container_timing :
  (forall ts Number, (forall t, 0 <= ts t) -> forall n attrs kids s,
    opt_is (sp_ruby (parseSpan (NElem n attrs kids))) "container" = true ->
    let rs := collectRubyTextSpans (parseSpan (NElem n attrs kids)) in
    let cb := getAttr attrs (js "begin") in
    let ce := getAttr attrs (js "end") in
    exists w, fst (createWordFromSpanElement ts Number (NElem n attrs kids) s) = Some w /\
      map (fun b => (wb_word b, wb_startTime b, wb_endTime b)) (default [] (w_ruby w))
        = map (fun r => (flattenSpanInnerText r,
                         Num (ruby_segment_time_spec ts (sp_begin r) cb),
                         Num (ruby_segment_time_spec ts (sp_end r) ce))) rs /\
      w_startTime w = Num (ruby_word_time_spec ts cb Z.min
        (map (fun r => (flattenSpanInnerText r, ruby_segment_time_spec ts (sp_begin r) cb)) rs)) /\
      w_endTime w = Num (ruby_word_time_spec ts ce Z.max
        (map (fun r => (flattenSpanInnerText r, ruby_segment_time_spec ts (sp_end r) ce)) rs)))
  /\ match fst (createWordFromSpanElement parseTimespan_spec number0 ruby_example st0) with
     | Some w => (w_startTime w, w_endTime w,
                  map (fun b => (wb_startTime b, wb_endTime b)) (default [] (w_ruby w)))
                 = (Num 1000, Num 2000, [(Num 1000, Num 2000); (Num 1000, Num 2000)])
     | None => False
     end.
Proof.
  split.
  - intros ts Number Hts n attrs kids s Hc. exact (ruby_timing ts Number Hts n attrs kids s Hc).
  - vm_compute. reflexivity.
Qed.

Lemma ruby_container_timing_witness :
  exists w, fst (createWordFromSpanElement parseTimespan_spec number0 ruby_example st0) = Some w /\
    w_startTime w = Num (ruby_word_time_spec parseTimespan_spec (getAttr (attrs_of ruby_example) (js "begin")) Z.min
      (map (fun r => (flattenSpanInnerText r,
                      ruby_segment_time_spec parseTimespan_spec (sp_begin r) (getAttr (attrs_of ruby_example) (js "begin"))))
           (collectRubyTextSpans (parseSpan ruby_example)))).
Proof.
  destruct (proj1 ruby_container_timing parseTimespan_spec number0 parseTimespan_spec_nonneg
              (js "span") (attrs_of ruby_example) (kids_of ruby_example) st0 ltac:(vm_compute; reflexivity))
    as (w & Hw & _ & Hs & _).
  exists w. split; [exact Hw|exact Hs].
Defined.

(** C7: a line element whose [begin] and [end] attributes are both present
    and non-empty yields a line (the one with the id taken on entry) whose
    [startTime] and [endTime] are exactly the codec's values of those two
    attributes, whatever its children are. *)
Theorem explicit_line_timing ts Number innerHTML ctx n attrs kids isBG isDuet pk s b e :
  getAttribute attrs (js "begin") = Some b -> truthy b = true ->
  getAttribute attrs (js "end") = Some e -> truthy e = true ->
  exists pre post line,
    st_lines (snd (parseLineElement ts Number innerHTML ctx (NElem n attrs kids) isBG isDuet pk s))
      = st_lines s ++ pre ++ line :: post
    /\ l_id line = st_uid s /\ l_isBG line = isBG
    /\ l_startTime line = Num (ts b) /\ l_endTime line = Num (ts e).
Proof.
  intros Hb Htb He Hte. exact (explicit_output ts Number innerHTML ctx n attrs kids isBG isDuet pk s b e Hb Htb He Hte).
Qed.

Lemma explicit_line_timing_witness :
  exists pre post line,
    st_lines (snd (parseLineElement parseTimespan_spec number0 innerHTML0 ctx0
                     (el "p" [("begin", "1s"); ("end", "2s")]%string
                        [el "span" [("begin", "0s"); ("end", "5s")]%string [tx "w"]])
                     false false None st0))
      = st_lines st0 ++ pre ++ line :: post
    /\ l_id line = st_uid st0 /\ l_isBG line = false
    /\ l_startTime line = Num (parseTimespan_spec (js "1s"))
    /\ l_endTime line = Num (parseTimespan_spec (js "2s")).
Proof.
  apply (explicit_line_timing parseTimespan_spec number0 innerHTML0 ctx0 (js "p")
           [mkAttr (js "begin") (js "1s"); mkAttr (js "end") (js "2s")]
           [el "span" [("begin", "0s"); ("end", "5s")]%string [tx "w"]]
           false false None st0 (js "1s") (js "2s")); reflexivity.
Defined.

(** C8 (amended): nothing orders the two explicit attributes.  A line
    element with non-empty [begin] and [end] yields a line whose
    [startTime] and [endTime] are the decoded attribute values, whichever
    of the two is the larger; so [startTime <= endTime] holds exactly when
    the decoded [end] is not before the decoded [begin]. *)
Theorem explicit_times_unordered ts Number innerHTML ctx n attrs kids isBG isDuet pk s b e :
  getAttribute attrs (js "begin") = Some b -> truthy b = true ->
  getAttribute attrs (js "end") = Some e -> truthy e = true ->
  exists pre post line,
    st_lines (snd (parseLineElement ts Number innerHTML ctx (NElem n attrs kids) isBG isDuet pk s))
      = st_lines s ++ pre ++ line :: post
    /\ l_id line = st_uid s
    /\ l_startTime line = Num (ts b) /\ l_endTime line = Num (ts e)
    /\ (forall x y, l_startTime line = Num x -> l_endTime line = Num y -> (x <= y <-> ts b <= ts e)).
Proof.
  intros Hb Htb He Hte.
  destruct (explicit_output ts Number innerHTML ctx n attrs kids isBG isDuet pk s b e Hb Htb He Hte)
    as (pre & post & line & H & Hid & _ & Hs & He').
  exists pre, post, line. repeat (split; [assumption|]).
  intros x y Hx Hy. rewrite Hs in Hx. rewrite He' in Hy.
  injection Hx as <-. injection Hy as <-. tauto.
Qed.

Lemma explicit_times_unordered_witness :
  exists pre post line,
    st_lines (snd (parseLineElement parseTimespan_spec number0 innerHTML0 ctx0
                     (el "p" [("begin", "2s"); ("end", "1s")]%string [])
                     false false None st0))
      = st_lines st0 ++ pre ++ line :: post
    /\ l_id line = st_uid st0
    /\ l_startTime line = Num (parseTimespan_spec (js "2s"))
    /\ l_endTime line = Num (parseTimespan_spec (js "1s"))
    /\ (forall x y, l_startTime line = Num x -> l_endTime line = Num y ->
          (x <= y <-> parseTimespan_spec (js "2s") <= parseTimespan_spec (js "1s"))).
Proof.
  apply (explicit_times_unordered parseTimespan_spec number0 innerHTML0 ctx0 (js "p")
           [mkAttr (js "begin") (js "2s"); mkAttr (js "end") (js "1s")] []
           false false None st0 (js "2s") (js "1s")); reflexivity.
Defined.

(** C8: the document [doc_reversed], a line with [begin="2s"] and
    [end="1s"], parses to a line whose [endTime] (1000) is before its
    [startTime] (2000). *)
Lemma reversed_line_counterexample :
  map (fun l => (l_startTime l, l_endTime l))
    (lyricLines (parseLyric parseTimespan_spec number0 innerHTML0 0 (WellFormed doc_reversed)))
  = [(Num 2000, Num 1000)].
Proof. vm_compute. reflexivity. Qed.

(** C9: a child element that is not a ruby container, lacks a non-empty
    [begin] or [end], and is not a [span] with a [ttm:role] makes
    [createWordFromSpanElement] return [null] without touching the state,
    and the line element built with it is exactly the one built without it
    (same lines, same ids, same state). *)
Theorem untimed_span_dropped kn ka kk :
  opt_is (sp_ruby (parseSpan (NElem kn ka kk))) "container" = false ->
  negb (otruthy (getAttr ka (js "begin"))) || negb (otruthy (getAttr ka (js "end"))) = true ->
  negb (jsstr_eqb kn (js "span") && otruthy (getAttribute ka (js "ttm:role"))) = true ->
  (forall ts Number s, createWordFromSpanElement ts Number (NElem kn ka kk) s = (None, s)) /\
  (forall ts Number innerHTML ctx n attrs k1 k2 isBG isDuet pk s,
     parseLineElement ts Number innerHTML ctx (NElem n attrs (k1 ++ NElem kn ka kk :: k2)) isBG isDuet pk s
     = parseLineElement ts Number innerHTML ctx (NElem n attrs (k1 ++ k2)) isBG isDuet pk s).
Proof.
  intros Hc Hb Hr. split.
  - intros ts Number s. exact (cw_none ts Number kn ka kk s Hc Hb).
  - intros ts Number innerHTML ctx n attrs k1 k2 isBG isDuet pk s.
    rewrite !ple_run. cbv zeta. unfold line_run.
    rewrite loop_skip; [reflexivity|exact Hr|].
    intros s'. exact (cw_none ts Number kn ka kk s' Hc Hb).
Qed.

Lemma untimed_span_dropped_witness :
  parseLineElement parseTimespan_spec number0 innerHTML0 ctx0
    (el "p" [] [el "span" [("begin", "0s"); ("end", "1s")]%string [tx "a"];
                el "span" [("begin", "1s")]%string [tx "b"]]) false false None st0
  = parseLineElement parseTimespan_spec number0 innerHTML0 ctx0
    (el "p" [] [el "span" [("begin", "0s"); ("end", "1s")]%string [tx "a"]]) false false None st0.
Proof.
  refine (proj2 (untimed_span_dropped (js "span") [mkAttr (js "begin") (js "1s")] [tx "b"] _ _ _)
            parseTimespan_spec number0 innerHTML0 ctx0 (js "p") []
            [el "span" [("begin", "0s"); ("end", "1s")]%string [tx "a"]] [] false false None st0);
    vm_compute; reflexivity.
Defined.

(** C10: the word romanization pools that metadata extraction stored for a
    key are never written by the line builder: after one line element, and
    after a second one run on the resulting state (for instance a main line
    and a line of the same key), both pools of the key read as before. *)
Theorem word_roman_pool_untouched ts Number innerHTML ctx K lm lb
    el1 isBG1 isDuet1 pk1 el2 isBG2 isDuet2 pk2 s :
  c_wordRoman ctx !! K = Some (lm, lb) -> (lm < st_next s)%nat -> (lb < st_next s)%nat ->
  let s1 := snd (parseLineElement ts Number innerHTML ctx el1 isBG1 isDuet1 pk1 s) in
  let s2 := snd (parseLineElement ts Number innerHTML ctx el2 isBG2 isDuet2 pk2 s1) in
  st_heap s1 !! lm = st_heap s !! lm /\ st_heap s1 !! lb = st_heap s !! lb /\
  st_heap s2 !! lm = st_heap s !! lm /\ st_heap s2 !! lb = st_heap s !! lb.
Proof.
  intros _ Hm Hb. cbv zeta.
  pose proof (ple_keeps ts Number innerHTML ctx el1 isBG1 isDuet1 pk1 s) as K1.
  pose proof (ple_keeps ts Number innerHTML ctx el2 isBG2 isDuet2 pk2
                (snd (parseLineElement ts Number innerHTML ctx el1 isBG1 isDuet1 pk1 s))) as K2.
  destruct K1 as [Hn1 H1].
  assert (K2' : keeps (st_next s)
                  (snd (parseLineElement ts Number innerHTML ctx el1 isBG1 isDuet1 pk1 s))
                  (snd (parseLineElement ts Number innerHTML ctx el2 isBG2 isDuet2 pk2
                          (snd (parseLineElement ts Number innerHTML ctx el1 isBG1 isDuet1 pk1 s))))).
  { eapply keeps_weaken; [|exact K2]. exact Hn1. }
  destruct K2' as [_ H2].
  rewrite !H2, !H1 by lia. repeat split.
Qed.

Lemma word_roman_pool_untouched_witness :
  let ctx := mkCtx ∅ ∅ {[js "L1" := (0%nat, 1%nat)]} ∅ (js "v1") in
  let s := mkSt [] 0 {[0%nat := [mkRoman (Num 0) (Num 500) (js "a")]; 1%nat := []]} 2 in
  let p := el "p" [("itunes:key", "L1")]%string [el "span" [("begin", "0s"); ("end", "0.5s")]%string [tx "x"]] in
  let s1 := snd (parseLineElement parseTimespan_spec number0 innerHTML0 ctx p false false None s) in
  let s2 := snd (parseLineElement parseTimespan_spec number0 innerHTML0 ctx p false false None s1) in
  st_heap s1 !! 0%nat = st_heap s !! 0%nat /\ st_heap s1 !! 1%nat = st_heap s !! 1%nat /\
  st_heap s2 !! 0%nat = st_heap s !! 0%nat /\ st_heap s2 !! 1%nat = st_heap s !! 1%nat.
Proof.
  apply (word_roman_pool_untouched parseTimespan_spec number0 innerHTML0
           (mkCtx ∅ ∅ {[js "L1" := (0%nat, 1%nat)]} ∅ (js "v1")) (js "L1") 0%nat 1%nat);
    [vm_compute; reflexivity | cbn; lia | cbn; lia].
Defined.

(* ------------------------------------------------------------------ *)
(** * Further properties of the parser *)

Section Extras.
Variable parseTimespan : jsstr -> Z.
Variable Number : jsstr -> number.
Variable innerHTML : node -> jsstr.

Local Abbreviation PLE := (parseLineElement parseTimespan Number innerHTML).
Local Abbreviation LOOP := (line_loop parseTimespan Number innerHTML).
Local Abbreviation STEP := (line_step parseTimespan Number innerHTML).
Local Abbreviation CW := (createWordFromSpanElement parseTimespan Number).

Lemma role_span_cases r k :
  is_role_span r k = true ->
  exists kn ka kk, k = NElem kn ka kk /\ jsstr_eqb kn (js "span") = true
    /\ getAttribute ka (js "ttm:role") = Some (js r).
Proof.
  unfold is_role_span. destruct k as [| | |kn ka kk]; try discriminate.
  intros H. apply andb_prop in H as [H1 H3]. apply andb_prop in H1 as [H1 _].
  exists kn, ka, kk. split; [reflexivity|]. split; [exact H1|].
  unfold opt_is, jsstr_eqb in H3. destruct (getAttribute ka (js "ttm:role")); [|discriminate].
  apply bool_decide_eq_true in H3. congruence.
Qed.

Lemma first_truthy_cons_empty l : first_truthy ([] :: l) = first_truthy l.
Proof. reflexivity. Qed.

Lemma first_truthy_cons t l : truthy t = true -> first_truthy (t :: l) = t.
Proof. intros H. unfold first_truthy. simpl. rewrite H. reflexivity. Qed.

Lemma not_truthy t : truthy t = false -> t = [].
Proof. destruct t; [reflexivity|discriminate]. Qed.

(** An [x-translation] span fills the translation only while it is empty. *)
Lemma step_translated_x rec avail key k acc s :
  is_role_span "x-translation" k = true ->
  l_translatedLyric (fst (fst (STEP rec avail key k acc s)))
  = if truthy (l_translatedLyric (fst acc)) then l_translatedLyric (fst acc) else innerHTML k.
Proof.
  intros H. pose proof H as H'. apply role_span_cases in H' as (kn & ka & kk & -> & Hn & Hr).
  destruct acc as [line hb]. unfold line_step. rewrite Hn, Hr. simpl.
  destruct (truthy (l_translatedLyric line)); reflexivity.
Qed.

Lemma step_roman_x rec avail key k acc s :
  is_role_span "x-roman" k = true ->
  l_romanLyric (fst (fst (STEP rec avail key k acc s)))
  = if truthy (l_romanLyric (fst acc)) then l_romanLyric (fst acc) else innerHTML k.
Proof.
  intros H. pose proof H as H'. apply role_span_cases in H' as (kn & ka & kk & -> & Hn & Hr).
  destruct acc as [line hb]. unfold line_step. rewrite Hn, Hr. simpl.
  destruct (truthy (l_romanLyric line)); reflexivity.
Qed.

Lemma step_roman rec avail key k acc s :
  is_role_span "x-roman" k = false ->
  l_romanLyric (fst (fst (STEP rec avail key k acc s))) = l_romanLyric (fst acc).
Proof.
  destruct acc as [line hb]. unfold line_step, is_role_span.
  destruct k as [t|t|t|kn ka kk]; unfold bind, ret, uid; intros H; try reflexivity.
  destruct (jsstr_eqb kn (js "span") && otruthy (getAttribute ka (js "ttm:role"))) eqn:E1.
  - destruct (opt_is (getAttribute ka (js "ttm:role")) "x-bg"); [run; reflexivity|].
    destruct (opt_is (getAttribute ka (js "ttm:role")) "x-translation");
      [destruct (truthy (l_translatedLyric line)); reflexivity|].
    destruct (opt_is (getAttribute ka (js "ttm:role")) "x-roman"); [discriminate H|reflexivity].
  - run. destruct a; run; reflexivity.
Qed.

Lemma step_translated' rec avail key k acc s :
  is_role_span "x-translation" k = false ->
  l_translatedLyric (fst (fst (STEP rec avail key k acc s))) = l_translatedLyric (fst acc).
Proof.
  destruct acc as [line hb]. unfold line_step, is_role_span.
  destruct k as [t|t|t|kn ka kk]; unfold bind, ret, uid; intros H; try reflexivity.
  destruct (jsstr_eqb kn (js "span") && otruthy (getAttribute ka (js "ttm:role"))) eqn:E1.
  - destruct (opt_is (getAttribute ka (js "ttm:role")) "x-bg"); [run; reflexivity|].
    destruct (opt_is (getAttribute ka (js "ttm:role")) "x-translation"); [discriminate H|].
    destruct (opt_is (getAttribute ka (js "ttm:role")) "x-roman");
      [destruct (truthy (l_romanLyric line))|]; reflexivity.
  - run. destruct a; run; reflexivity.
Qed.

Lemma loop_translated_all rec avail key kids : forall acc s,
  l_translatedLyric (fst (fst (LOOP rec avail key kids acc s)))
  = first_truthy (l_translatedLyric (fst acc)
                  :: map innerHTML (filter (is_role_span "x-translation") kids)).
Proof.
  induction kids as [|k kids IH]; intros acc s; simpl.
  - unfold first_truthy. simpl. destruct (truthy (l_translatedLyric acc.1)) eqn:E;
      [reflexivity|simpl; apply not_truthy; exact E].
  - unfold bind. run. rewrite IH. rewrite filter_cons.
    destruct (is_role_span "x-translation" k) eqn:Hk.
    + rewrite decide_True by reflexivity.
      pose proof (step_translated_x rec avail key k acc s Hk) as Hs. rewrite E in Hs. simpl in Hs.
      rewrite Hs. destruct (truthy (l_translatedLyric acc.1)) eqn:Ht.
      * rewrite !first_truthy_cons by exact Ht. reflexivity.
      * rewrite (not_truthy _ Ht). reflexivity.
    + rewrite decide_False by (intros Hc; exact Hc).
      pose proof (step_translated' rec avail key k acc s Hk) as Hs. rewrite E in Hs. simpl in Hs.
      rewrite Hs. reflexivity.
Qed.

Lemma loop_roman_all rec avail key kids : forall acc s,
  l_romanLyric (fst (fst (LOOP rec avail key kids acc s)))
  = first_truthy (l_romanLyric (fst acc)
                  :: map innerHTML (filter (is_role_span "x-roman") kids)).
Proof.
  induction kids as [|k kids IH]; intros acc s; simpl.
  - unfold first_truthy. simpl. destruct (truthy (l_romanLyric acc.1)) eqn:E;
      [reflexivity|simpl; apply not_truthy; exact E].
  - unfold bind. run. rewrite IH. rewrite filter_cons.
    destruct (is_role_span "x-roman" k) eqn:Hk.
    + rewrite decide_True by reflexivity.
      pose proof (step_roman_x rec avail key k acc s Hk) as Hs. rewrite E in Hs. simpl in Hs.
      rewrite Hs. destruct (truthy (l_romanLyric acc.1)) eqn:Ht.
      * rewrite !first_truthy_cons by exact Ht. reflexivity.
      * rewrite (not_truthy _ Ht). reflexivity.
    + rewrite decide_False by (intros Hc; exact Hc).
      pose proof (step_roman rec avail key k acc s Hk) as Hs. rewrite E in Hs. simpl in Hs.
      rewrite Hs. reflexivity.
Qed.

Lemma finish_line_roman e l : l_romanLyric (finish_line e l) = l_romanLyric l.
Proof. destruct l as [? ? ? ? bg]. unfold finish_line. destruct e, bg; reflexivity. Qed.

Lemma line_init_key_translation ctx attrs isBG isDuet pk id :
  l_translatedLyric (line_init parseTimespan ctx attrs isBG isDuet pk id)
  = key_translation ctx attrs isBG pk.
Proof.
  unfold line_init, key_translation. cbv zeta.
  destruct (line_key attrs isBG pk) as [k|]; [destruct (truthy k)|]; reflexivity.
Qed.

Lemma line_init_key_roman ctx attrs isBG isDuet pk id :
  l_romanLyric (line_init parseTimespan ctx attrs isBG isDuet pk id)
  = key_roman ctx attrs isBG pk.
Proof.
  unfold line_init, key_roman. cbv zeta.
  destruct (line_key attrs isBG pk) as [k|]; [destruct (truthy k)|]; reflexivity.
Qed.

End Extras.

(** X1: the translation of a line is the metadata translation of its key
    when that is non-empty, otherwise the [innerHTML] of its first
    [x-translation] span child with non-empty content, otherwise [""]. *)
Theorem line_translation_precedence ts Number innerHTML ctx n attrs kids isBG isDuet pk s :
  exists pre post line,
    st_lines (snd (parseLineElement ts Number innerHTML ctx (NElem n attrs kids) isBG isDuet pk s))
      = st_lines s ++ pre ++ line :: post
    /\ l_id line = st_uid s
    /\ l_translatedLyric line
       = first_truthy (key_translation ctx attrs isBG pk
                       :: map innerHTML (filter (is_role_span "x-translation") kids)).
Proof.
  destruct (ple_output ts Number innerHTML ctx n attrs kids isBG isDuet pk s) as (pre & post & H).
  eexists pre, post, _. split; [exact H|].
  pose proof (run_frame ts Number innerHTML ctx attrs kids isBG isDuet pk s) as (Hid & _).
  pose proof (line_init_frame ts ctx attrs isBG isDuet pk (st_uid s)) as (Hid0 & _).
  rewrite finish_line_id, finish_line_translated. split; [congruence|].
  unfold line_run. rewrite loop_translated_all. simpl.
  rewrite line_init_key_translation. reflexivity.
Qed.

(** X2: the line romanization of a line is the metadata romanization of
    its key when that is non-empty, otherwise the [innerHTML] of its first
    [x-roman] span child with non-empty content, otherwise [""]. *)
Theorem line_roman_precedence ts Number innerHTML ctx n attrs kids isBG isDuet pk s :
  exists pre post line,
    st_lines (snd (parseLineElement ts Number innerHTML ctx (NElem n attrs kids) isBG isDuet pk s))
      = st_lines s ++ pre ++ line :: post
    /\ l_id line = st_uid s
    /\ l_romanLyric line
       = first_truthy (key_roman ctx attrs isBG pk
                       :: map innerHTML (filter (is_role_span "x-roman") kids)).
Proof.
  destruct (ple_output ts Number innerHTML ctx n attrs kids isBG isDuet pk s) as (pre & post & H).
  eexists pre, post, _. split; [exact H|].
  pose proof (run_frame ts Number innerHTML ctx attrs kids isBG isDuet pk s) as (Hid & _).
  pose proof (line_init_frame ts ctx attrs isBG isDuet pk (st_uid s)) as (Hid0 & _).
  rewrite finish_line_id, finish_line_roman. split; [congruence|].
  unfold line_run. rewrite loop_roman_all. simpl.
  rewrite line_init_key_roman. reflexivity.
Qed.

Section Extras2.
Variable parseTimespan : jsstr -> Z.
Variable Number : jsstr -> number.
Variable innerHTML : node -> jsstr.

Local Abbreviation PLE := (parseLineElement parseTimespan Number innerHTML).
Local Abbreviation LOOP := (line_loop parseTimespan Number innerHTML).
Local Abbreviation STEP := (line_step parseTimespan Number innerHTML).

Lemma push_in_order_perm hb line4 s3 :
  st_lines (snd (push_in_order hb line4 s3)) ≡ₚ st_lines s3 ++ [line4].
Proof.
  destruct hb; unfold push_in_order, bind, pop_line, push_line, ret; simpl; [|reflexivity].
  destruct (decide (st_lines s3 = [])) as [E|Hne].
  - rewrite E. reflexivity.
  - destruct (exists_last Hne) as (L & b & E). rewrite E, last_snoc, removelast_last. simpl.
    rewrite <- !app_assoc. apply Permutation_app_head. simpl. apply Permutation_swap.
Qed.

Lemma count_lines_elem n a kids :
  count_lines (NElem n a kids)
  = S (sum_list_with (fun k => if is_role_span "x-bg" k then count_lines k else 0%nat) kids).
Proof.
  reflexivity.
Qed.

Lemma loop_count rec avail key kids :
  (forall k, In k kids -> is_role_span "x-bg" k = true -> forall b d key' s0,
     length (st_lines (snd (rec k b d key' s0))) = (length (st_lines s0) + count_lines k)%nat) ->
  forall acc s,
  length (st_lines (snd (LOOP rec avail key kids acc s)))
  = (length (st_lines s)
     + sum_list_with (fun k => if is_role_span "x-bg" k then count_lines k else 0%nat) kids)%nat.
Proof.
  intros Hrec. induction kids as [|k kids IH]; intros acc s; simpl; [lia|].
  unfold bind. run. rewrite IH by (intros k' Hin; apply Hrec; right; exact Hin).
  destruct (is_role_span "x-bg" k) eqn:Hb.
  - destruct acc as [line hb]. rewrite step_bg in E by exact Hb. injection E as <- <-.
    rewrite Hrec by (first [left; reflexivity | exact Hb]). lia.
  - pose proof (step_no_bg parseTimespan Number innerHTML rec avail key k acc s Hb) as [HL _].
    rewrite E in HL. simpl in HL. rewrite HL. lia.
Qed.

(** Each line element appends exactly [count_lines] lines. *)
Lemma ple_count ctx el : forall isBG isDuet pk s,
  length (st_lines (snd (PLE ctx el isBG isDuet pk s))) = (length (st_lines s) + count_lines el)%nat.
Proof.
  induction el as [t|t|t|n attrs kids IHk] using node_ind'; intros isBG isDuet pk s;
    try (simpl; lia).
  rewrite ple_run. cbv zeta. rewrite count_lines_elem.
  rewrite (Permutation_length (push_in_order_perm _ _ _)), length_app. simpl.
  unfold line_run. rewrite loop_count.
  - unfold entry_state. simpl. lia.
  - intros k Hin _ b d key' s0. rewrite List.Forall_forall in IHk. apply IHk; exact Hin.
Qed.

Lemma line_init_duet ctx attrs isBG isDuet pk id :
  l_isDuet (line_init parseTimespan ctx attrs isBG isDuet pk id)
  = if isBG then isDuet else agent_duet ctx attrs.
Proof.
  unfold line_init, agent_duet. cbv zeta.
  destruct (line_key attrs isBG pk) as [k|]; [destruct (truthy k)|]; reflexivity.
Qed.

Lemma loop_duet rec avail key kids d :
  (forall k, In k kids -> is_role_span "x-bg" k = true -> forall key' s0,
     exists B, st_lines (snd (rec k true d key' s0)) = st_lines s0 ++ B
               /\ Forall (fun l => l_isDuet l = d) B) ->
  forall acc s, l_isDuet (fst acc) = d ->
  exists B, st_lines (snd (LOOP rec avail key kids acc s)) = st_lines s ++ B
            /\ Forall (fun l => l_isDuet l = d) B.
Proof.
  intros Hrec. induction kids as [|k kids IH]; intros acc s Hd; simpl.
  - exists []. rewrite app_nil_r. split; [reflexivity|constructor].
  - unfold bind. run.
    pose proof (step_frame parseTimespan Number innerHTML rec avail key k acc s) as (_&_&_&_&Hf).
    rewrite E in Hf. simpl in Hf.
    destruct (IH (fun k' Hin => Hrec k' (or_intror Hin)) a s0 ltac:(congruence)) as (B2 & HL2 & HF2).
    destruct (is_role_span "x-bg" k) eqn:Hb.
    + destruct acc as [line hb]. rewrite step_bg in E by exact Hb. injection E as <- <-.
      simpl in Hd. subst d.
      destruct (Hrec k (or_introl eq_refl) Hb key s) as (B1 & HL1 & HF1).
      exists (B1 ++ B2). rewrite HL2, HL1, app_assoc. split; [reflexivity|].
      apply Forall_app; split; assumption.
    + pose proof (step_no_bg parseTimespan Number innerHTML rec avail key k acc s Hb) as [HL _].
      rewrite E in HL. simpl in HL. exists B2. rewrite HL2, HL. split; [reflexivity|exact HF2].
Qed.

(** The lines a line element appends all carry the duet flag of its own
    line: the given one for a background line, the agent's otherwise. *)
Lemma ple_duet ctx el : forall isBG isDuet pk s,
  exists B, st_lines (snd (PLE ctx el isBG isDuet pk s)) = st_lines s ++ B
    /\ Forall (fun l => l_isDuet l = if isBG then isDuet else agent_duet ctx (attrs_of el)) B.
Proof.
  induction el as [t|t|t|n attrs kids IHk] using node_ind'; intros isBG isDuet pk s;
    try (exists []; rewrite app_nil_r; split; [reflexivity|constructor]).
  set (d := if isBG then isDuet else agent_duet ctx (attrs_of (NElem n attrs kids))).
  destruct (ple_appends parseTimespan Number innerHTML ctx (NElem n attrs kids) eq_refl isBG isDuet pk s)
    as (B & _ & HB).
  exists B. split; [exact HB|].
  rewrite ple_run in HB. cbv zeta in HB.
  pose proof (push_in_order_perm
                (snd (fst (line_run parseTimespan Number innerHTML ctx attrs kids isBG isDuet pk s)))
                (finish_line (explicit_timing attrs)
                   (fst (fst (line_run parseTimespan Number innerHTML ctx attrs kids isBG isDuet pk s))))
                (snd (line_run parseTimespan Number innerHTML ctx attrs kids isBG isDuet pk s))) as HP.
  rewrite HB in HP.
  pose proof (run_frame parseTimespan Number innerHTML ctx attrs kids isBG isDuet pk s) as (_&_&_&_&Hf).
  unfold line_run in HP, Hf.
  destruct (loop_duet (PLE ctx) (st_next s) (line_key attrs isBG pk) kids d) with
    (acc := (line_init parseTimespan ctx attrs isBG isDuet pk (st_uid s), false))
    (s := entry_state ctx attrs isBG pk s) as (B1 & HL1 & HF1).
  { intros k Hin _ key' s0. rewrite List.Forall_forall in IHk.
    exact (IHk k Hin true d key' s0). }
  { simpl. rewrite line_init_duet. reflexivity. }
  rewrite HL1 in HP. unfold entry_state in HP, Hf. simpl in HP. rewrite <- app_assoc in HP.
  apply Permutation_app_inv_l in HP.
  rewrite HP. apply Forall_app. split; [exact HF1|].
  constructor; [|constructor].
  rewrite finish_line_isDuet, Hf, line_init_duet. reflexivity.
Qed.

Lemma fold_M_inv {X Y} (Inv : X * St -> Prop) (f : M X -> Y -> M X) (l : list Y) :
  (forall acc x s, Inv (acc s) -> Inv (f acc x s)) ->
  forall acc s, Inv (acc s) -> Inv (fold_left f l acc s).
Proof.
  intros Hf. induction l as [|x l IH]; intros acc s H; simpl; [exact H|].
  apply IH. apply Hf. exact H.
Qed.

Lemma romanizations_lines root s :
  st_lines (snd (extract_romanizations parseTimespan root s)) = st_lines s
  /\ st_uid (snd (extract_romanizations parseTimespan root s)) = st_uid s.
Proof.
  unfold extract_romanizations.
  apply (fold_M_inv (fun p => st_lines (snd p) = st_lines s /\ st_uid (snd p) = st_uid s));
    [|split; reflexivity].
  intros acc x s0 [H1 H2]. unfold bind. destruct (acc s0) as [[lm wm] s1]. simpl in H1, H2.
  destruct (getAttribute (attrs_of x) (js "for")) as [key|]; [|split; assumption].
  destruct (truthy key); [|split; assumption].
  destruct (romanization_scan parseTimespan x) as [[[[wbw mw] bw] lmn] lbg].
  unfold alloc, ret. simpl. split; assumption.
Qed.

Lemma lines_fold_count ctx (l : list node) : forall acc s,
  length (st_lines (snd (fold_left (fun acc lineEl => _ <- acc ;; PLE ctx lineEl false false None) l acc s)))
  = (length (st_lines (snd (acc s))) + sum_list_with count_lines l)%nat.
Proof.
  induction l as [|x l IH]; intros acc s; simpl; [lia|].
  rewrite IH. unfold bind at 1. destruct (acc s) as [u s1]. simpl.
  rewrite ple_count. lia.
Qed.

Lemma snd_bind_ret {A B} (m : M A) (b : B) s : snd (bind m (fun _ => ret b) s) = snd (m s).
Proof. unfold bind, ret. destruct (m s). reflexivity. Qed.

Lemma parseDocument_lines root s :
  exists ctx, snd (parseDocument parseTimespan Number innerHTML root s)
  = snd (fold_left (fun acc lineEl => _ <- acc ;; PLE ctx lineEl false false None)
           (qsa_desc root (sel "body" []) (sel "p" ["begin"%string; "end"%string]))
           (ret tt) (snd (extract_romanizations parseTimespan root s))).
Proof.
  unfold parseDocument. unfold bind at 1.
  destruct (extract_romanizations parseTimespan root s) as [[lr wr] s1]. simpl.
  destruct (extract_timed root (extract_translations root)) as [timed tr].
  exists (mkCtx tr lr wr timed (extract_agent root)). cbv zeta.
  rewrite snd_bind_ret. reflexivity.
Qed.

End Extras2.

(** X3: [parseLyric] outputs exactly one line per selected
    [body p[begin][end]] element plus one per [x-bg] span child, counted
    recursively through nested [x-bg] spans. *)
Theorem lyric_line_count ts Number innerHTML uid0 root :
  length (lyricLines (parseLyric ts Number innerHTML uid0 (WellFormed root)))
  = sum_list_with count_lines (qsa_desc root (sel "body" []) (sel "p" ["begin"%string; "end"%string])).
Proof.
  unfold parseLyric. simpl parseFromString.
  destruct (parseDocument_lines ts Number innerHTML root (mkSt [] uid0 ∅ 0)) as [ctx Hc].
  destruct (parseDocument ts Number innerHTML root (mkSt [] uid0 ∅ 0)) as [md s] eqn:E.
  simpl in Hc |- *. rewrite Hc, lines_fold_count. simpl.
  rewrite (proj1 (romanizations_lines ts root (mkSt [] uid0 ∅ 0))). reflexivity.
Qed.

(** X4: all the lines appended for a top-level line element (its own line
    and the lines of its [x-bg] spans, nested or not) carry the same duet
    flag: [ttm:agent] of the line element is non-empty and differs from
    the main agent.  The [ttm:agent] of the background spans is ignored. *)
Theorem bg_lines_share_duet ts Number innerHTML ctx n attrs kids s :
  exists B,
    st_lines (snd (parseLineElement ts Number innerHTML ctx (NElem n attrs kids) false false None s))
      = st_lines s ++ B
    /\ length B = count_lines (NElem n attrs kids)
    /\ Forall (fun l => l_isDuet l = agent_duet ctx attrs) B.
Proof.
  destruct (ple_duet ts Number innerHTML ctx (NElem n attrs kids) false false None s) as (B & HB & HF).
  exists B. split; [exact HB|]. split; [|exact HF].
  pose proof (ple_count ts Number innerHTML ctx (NElem n attrs kids) false false None s) as Hc.
  rewrite HB, length_app in Hc. lia.
Qed.

Section Extras3.
Variable parseTimespan : jsstr -> Z.
Variable Number : jsstr -> number.
Variable innerHTML : node -> jsstr.

Lemma fold_inv {A B} (Inv : A -> Prop) (f : A -> B -> A) (l : list B) :
  (forall a x, Inv a -> Inv (f a x)) -> forall a, Inv a -> Inv (fold_left f l a).
Proof.
  intros Hf. induction l as [|x l IH]; intros a H; simpl; [exact H|]. apply IH, Hf, H.
Qed.

Lemma jsstr_eqb_eq a b : jsstr_eqb a b = true <-> a = b.
Proof. unfold jsstr_eqb. apply bool_decide_eq_true. Qed.

Lemma jsstr_eqb_neq a b : jsstr_eqb a b = false <-> a <> b.
Proof. unfold jsstr_eqb. apply bool_decide_eq_false. Qed.

(** Invariant of the timed-translation pass. *)
Lemma extract_timed_inv root plain :
  let r := extract_timed root plain in
  (forall K, is_Some (r.1 !! K) -> r.2 !! K = None)
  /\ (forall K m, r.2 !! K = Some m -> plain !! K = Some m)
  /\ (forall K m, r.1 !! K = Some m -> truthy (lm_main m) || truthy (lm_bg m) = true).
Proof.
  unfold extract_timed. cbv zeta.
  apply (fold_inv (fun r : gmap jsstr LineMetadata * gmap jsstr LineMetadata =>
    (forall K, is_Some (r.1 !! K) -> r.2 !! K = None)
    /\ (forall K m, r.2 !! K = Some m -> plain !! K = Some m)
    /\ (forall K m, r.1 !! K = Some m -> truthy (lm_main m) || truthy (lm_bg m) = true))).
  - intros [timed tr] textEl (H1 & H2 & H3). simpl in H1, H2, H3.
    destruct (getAttribute (attrs_of textEl) (js "for")) as [key|]; [|auto].
    destruct (truthy key); [|auto].
    unfold is_timed. destruct (translation_texts textEl) as [main bg].
    destruct ((truthy main || truthy bg) && _) eqn:Ht; [|auto]. simpl.
    apply andb_prop in Ht as [Ht _].
    split; [|split].
    + intros K HK. destruct (decide (K = key)) as [->|Hne].
      * apply lookup_delete_eq.
      * rewrite lookup_delete_ne by congruence. apply H1.
        rewrite lookup_insert_ne in HK by congruence. exact HK.
    + intros K m HK. destruct (decide (K = key)) as [->|Hne].
      * rewrite lookup_delete_eq in HK. discriminate.
      * rewrite lookup_delete_ne in HK by congruence. apply H2, HK.
    + intros K m HK. destruct (decide (K = key)) as [->|Hne].
      * rewrite lookup_insert_eq in HK. injection HK as <-. exact Ht.
      * rewrite lookup_insert_ne in HK by congruence. exact (H3 K m HK).
  - simpl. split; [|split].
    + intros K [m HK]. rewrite lookup_empty in HK. discriminate.
    + intros K m HK. exact HK.
    + intros K m HK. rewrite lookup_empty in HK. discriminate.
Qed.

Lemma extract_translations_nonblank root K m :
  extract_translations root !! K = Some m -> truthy (lm_main m) || truthy (lm_bg m) = true.
Proof.
  unfold extract_translations. revert K m.
  apply (fold_inv (fun r : gmap jsstr LineMetadata =>
    forall K m, r !! K = Some m -> truthy (lm_main m) || truthy (lm_bg m) = true)).
  - intros r textEl H.
    destruct (getAttribute (attrs_of textEl) (js "for")) as [key|]; [|exact H].
    destruct (truthy key); [|exact H].
    destruct (translation_texts textEl) as [main bg].
    destruct (truthy main || truthy bg) eqn:Ht; [|exact H].
    intros K m HK. destruct (decide (K = key)) as [->|Hne].
    + rewrite lookup_insert_eq in HK. injection HK as <-. exact Ht.
    + rewrite lookup_insert_ne in HK by congruence. exact (H K m HK).
  - intros K m HK. rewrite lookup_empty in HK. discriminate.
Qed.

Lemma romanizations_nonblank root s K m :
  (fst (extract_romanizations parseTimespan root s)).1 !! K = Some m ->
  truthy (lm_main m) || truthy (lm_bg m) = true.
Proof.
  revert K m. unfold extract_romanizations.
  apply (fold_M_inv (fun p : gmap jsstr LineMetadata * gmap jsstr (loc * loc) * St =>
    forall K m, p.1.1 !! K = Some m -> truthy (lm_main m) || truthy (lm_bg m) = true)).
  - intros acc x s0 H. unfold bind. destruct (acc s0) as [[lm wm] s1]. simpl in H.
    destruct (getAttribute (attrs_of x) (js "for")) as [key|]; [|exact H].
    destruct (truthy key); [|exact H].
    destruct (romanization_scan parseTimespan x) as [[[[wbw mw] bw] lmn] lbg].
    unfold alloc, ret. simpl.
    destruct (truthy (trim lmn) || truthy (clean_bg lbg)) eqn:Ht; [|exact H].
    intros K m HK. destruct (decide (K = key)) as [->|Hne].
    + rewrite lookup_insert_eq in HK. injection HK as <-. exact Ht.
    + rewrite lookup_insert_ne in HK by congruence. exact (H K m HK).
  - intros K m HK. simpl in HK. rewrite lookup_empty in HK. discriminate.
Qed.

Lemma find_first_map {A} (p : A -> bool) (f : A -> A) (l : list A) :
  (forall x, p (f x) = p x) -> find_first p (map f l) = f <$> find_first p l.
Proof.
  intros Hp. induction l as [|x l IH]; simpl; [reflexivity|]. rewrite Hp.
  destruct (p x); [reflexivity|exact IH].
Qed.

Lemma find_first_app_none {A} (p : A -> bool) (l1 l2 : list A) :
  find_first p l1 = None -> find_first p (l1 ++ l2) = find_first p l2.
Proof.
  induction l1 as [|x l1 IH]; simpl; [reflexivity|]. destruct (p x); [discriminate|exact IH].
Qed.

Lemma find_first_app_some {A} (p : A -> bool) (l1 l2 : list A) x :
  find_first p l1 = Some x -> find_first p (l1 ++ l2) = Some x.
Proof.
  induction l1 as [|y l1 IH]; simpl; [discriminate|]. destruct (p y); [exact id|exact IH].
Qed.

Lemma find_first_none_existsb {A} (p : A -> bool) (l : list A) :
  existsb p l = false -> find_first p l = None.
Proof.
  induction l as [|x l IH]; simpl; [reflexivity|].
  destruct (p x); [discriminate|exact IH].
Qed.

Lemma existsb_find_first_none {A} (p : A -> bool) (l : list A) :
  find_first p l = None -> existsb p l = false.
Proof.
  induction l as [|x l IH]; simpl; [reflexivity|].
  destruct (p x); [discriminate|exact IH].
Qed.

Lemma find_first_some_p {A} (p : A -> bool) (l : list A) x :
  find_first p l = Some x -> p x = true.
Proof.
  induction l as [|y l IH]; simpl; [discriminate|].
  destruct (p y) eqn:E; [intros H; injection H as <-; exact E|exact IH].
Qed.

Lemma length_filter_map {A} (p : A -> bool) (f : A -> A) (l : list A) :
  (forall x, p (f x) = p x) ->
  length (filter p (map f l)) = length (filter p l).
Proof.
  intros Hp. induction l as [|x l IH]; [reflexivity|]. simpl.
  rewrite !filter_cons, Hp. destruct (p x); simpl; rewrite IH; reflexivity.
Qed.

Lemma length_filter_none {A} (p : A -> bool) (l : list A) :
  find_first p l = None -> length (filter p l) = 0%nat.
Proof.
  induction l as [|x l IH]; simpl; [reflexivity|].
  rewrite filter_cons. destruct (p x); [discriminate|exact IH].
Qed.

Lemma add_meta_inv md key v k vs :
  find_first (fun m => jsstr_eqb (m_key m) k) md = meta_entry k vs ->
  length (filter (fun m => jsstr_eqb (m_key m) k) md) = (if vs then 0 else 1)%nat ->
  let vs' := if jsstr_eqb key k then vs ++ [v] else vs in
  find_first (fun m => jsstr_eqb (m_key m) k) (add_meta md key v) = meta_entry k vs'
  /\ length (filter (fun m => jsstr_eqb (m_key m) k) (add_meta md key v))
     = (if vs' then 0 else 1)%nat.
Proof.
  intros Hf Hl. cbv zeta. unfold add_meta.
  set (f := fun m => if jsstr_eqb (m_key m) key then mkMeta (m_key m) (m_value m ++ [v]) else m).
  assert (Hp : forall m, jsstr_eqb (m_key (f m)) k = jsstr_eqb (m_key m) k).
  { intros m. unfold f. destruct (jsstr_eqb (m_key m) key); reflexivity. }
  destruct (existsb (fun m => jsstr_eqb (m_key m) key) md) eqn:Ex.
  - rewrite find_first_map by exact Hp. rewrite length_filter_map by exact Hp. rewrite Hf.
    destruct (jsstr_eqb key k) eqn:Ek.
    + apply jsstr_eqb_eq in Ek as ->.
      destruct vs as [|v0 vs].
      * exfalso. simpl in Hf. apply existsb_find_first_none in Hf. rewrite Ex in Hf. discriminate.
      * simpl in Hl |- *. unfold f. simpl. rewrite (proj2 (jsstr_eqb_eq k k) eq_refl).
        split; [reflexivity|exact Hl].
    + destruct vs as [|v0 vs]; simpl; [split; [reflexivity|exact Hl]|].
      unfold f. simpl. assert (Hne : k <> key) by (intros ->; apply jsstr_eqb_neq in Ek; auto).
      rewrite (proj2 (jsstr_eqb_neq k key) Hne). split; [reflexivity|exact Hl].
  - rewrite filter_app, length_app. simpl. rewrite filter_cons.
    destruct (jsstr_eqb key k) eqn:Ek.
    + apply jsstr_eqb_eq in Ek as ->.
      assert (Hn : find_first (fun m => jsstr_eqb (m_key m) k) md = None)
        by (apply find_first_none_existsb; exact Ex).
      rewrite find_first_app_none by exact Hn. simpl.
      rewrite (proj2 (jsstr_eqb_eq k k) eq_refl). rewrite decide_True by reflexivity.
      rewrite Hn in Hf. destruct vs; [|discriminate]. simpl in Hl |- *.
      split; [reflexivity|]. rewrite Hl. reflexivity.
    + rewrite decide_False by (simpl; rewrite Ek; auto). simpl.
      destruct vs as [|v0 vs]; simpl in Hf, Hl |- *.
      * rewrite find_first_app_none by exact Hf. simpl. rewrite Ek. split; [reflexivity|lia].
      * rewrite (find_first_app_some _ _ _ _ Hf). split; [reflexivity|lia].
Qed.

Lemma extract_meta_inv root k :
  find_first (fun m => jsstr_eqb (m_key m) k) (extract_meta root) = meta_entry k (meta_values root k)
  /\ length (filter (fun m => jsstr_eqb (m_key m) k) (extract_meta root))
     = (if meta_values root k then 0 else 1)%nat.
Proof.
  unfold extract_meta, meta_values.
  assert (G : forall (l : list node) md vs,
    find_first (fun m => jsstr_eqb (m_key m) k) md = meta_entry k vs ->
    length (filter (fun m => jsstr_eqb (m_key m) k) md) = (if vs then 0 else 1)%nat ->
    let r := fold_left (fun md meta =>
      if jsstr_eqb (name_of meta) (js "amll:meta") then
        match getAttribute (attrs_of meta) (js "key"), getAttribute (attrs_of meta) (js "value") with
        | Some key, Some value => if truthy key && truthy value then add_meta md key value else md
        | _, _ => md
        end
      else md) l md in
    find_first (fun m => jsstr_eqb (m_key m) k) r = meta_entry k (vs ++ omap (meta_value k) l)
    /\ length (filter (fun m => jsstr_eqb (m_key m) k) r)
       = (if vs ++ omap (meta_value k) l then 0 else 1)%nat).
  { induction l as [|x l IH]; intros md vs Hf Hl; simpl.
    - rewrite app_nil_r. split; assumption.
    - assert (Emv : meta_value k x =
        if jsstr_eqb (name_of x) (js "amll:meta") then
          match getAttribute (attrs_of x) (js "key"), getAttribute (attrs_of x) (js "value") with
          | Some key, Some value =>
              if truthy key && truthy value && jsstr_eqb key k then Some value else None
          | _, _ => None
          end
        else None) by reflexivity.
      rewrite Emv.
      destruct (jsstr_eqb (name_of x) (js "amll:meta")); [|simpl; apply IH; assumption].
      destruct (getAttribute (attrs_of x) (js "key")) as [key|]; [|simpl; apply IH; assumption].
      destruct (getAttribute (attrs_of x) (js "value")) as [value|]; [|simpl; apply IH; assumption].
      destruct (truthy key && truthy value) eqn:Et; simpl; [|apply IH; assumption].
      destruct (add_meta_inv md key value k vs Hf Hl) as [H1 H2].
      destruct (jsstr_eqb key k) eqn:Ek.
      + rewrite cons_middle, app_assoc. apply IH; assumption.
      + apply IH; assumption. }
  exact (G _ [] [] eq_refl eq_refl).
Qed.

Lemma fst_bind_ret {A B} (m : M A) (b : B) s : fst (bind m (fun _ => ret b) s) = b.
Proof. unfold bind, ret. destruct (m s). reflexivity. Qed.

Lemma parseDocument_metadata root s :
  fst (parseDocument parseTimespan Number innerHTML root s)
  = extract_songwriters root (extract_meta root).
Proof.
  unfold parseDocument. unfold bind at 1.
  destruct (extract_romanizations parseTimespan root s) as [[lr wr] s1]. simpl.
  destruct (extract_timed root (extract_translations root)) as [timed tr]. cbv zeta.
  apply fst_bind_ret.
Qed.

(** The background-text clean-up. *)
Lemma ends_close_app s t : t <> [] -> ends_close (s ++ t) = ends_close t.
Proof.
  intros Ht. destruct (exists_last Ht) as (t' & c & ->).
  unfold ends_close. rewrite app_assoc, !last_snoc. reflexivity.
Qed.

Lemma removelast_app_ne (s t : jsstr) : t <> [] -> removelast (s ++ t) = s ++ removelast t.
Proof. intros Ht. apply removelast_app. exact Ht. Qed.

Lemma words_text_app ws1 ws2 : words_text (ws1 ++ ws2) = words_text ws1 ++ words_text ws2.
Proof. unfold words_text. rewrite map_app, concat_app. reflexivity. Qed.

Lemma strip_first_text ws :
  Forall (fun w => w_word w <> []) ws ->
  words_text (strip_first_word ws) = strip_open (words_text ws)
  /\ Forall (fun w => w_word w <> []) (strip_first_word ws).
Proof.
  intros H. destruct ws as [|w ws]; [split; [reflexivity|constructor]|].
  inversion H as [|? ? Hw Hws]; subst.
  assert (Et : words_text (w :: ws) = w_word w ++ words_text ws) by reflexivity.
  unfold strip_first_word. rewrite Et.
  destruct (w_word w) as [|c t] eqn:Ew; [contradiction|].
  cbn [starts_open strip_open app tail]. destruct (is_open_paren c) eqn:Ec.
  - destruct t as [|c' t']; cbn [truthy].
    + split; [reflexivity|exact Hws].
    + split; [reflexivity|]. constructor; [simpl; discriminate|exact Hws].
  - split; [exact Et|exact H].
Qed.

Lemma strip_last_text ws :
  Forall (fun w => w_word w <> []) ws ->
  words_text (strip_last_word ws) = strip_close (words_text ws).
Proof.
  intros H. destruct (decide (ws = [])) as [->|Hne]; [reflexivity|].
  destruct (exists_last Hne) as (ws' & w & ->).
  apply Forall_app in H as [_ Hw]. inversion Hw as [|? ? Hw1 _]; subst.
  destruct (exists_last Hw1) as (t & c & Ew).
  unfold strip_last_word. rewrite last_snoc, Ew.
  assert (Ht : words_text (ws' ++ [w]) = (words_text ws' ++ t) ++ [c]).
  { rewrite words_text_app, <- app_assoc. unfold words_text at 2. simpl. rewrite Ew, app_nil_r. reflexivity. }
  rewrite Ht. unfold strip_close, ends_close. rewrite !last_snoc.
  destruct (is_close_paren c); [|exact Ht].
  rewrite !removelast_last.
  destruct (truthy t) eqn:Etr.
  - rewrite words_text_app. unfold words_text at 2. simpl. rewrite app_nil_r. reflexivity.
  - apply not_truthy in Etr. subst t. rewrite !app_nil_r. reflexivity.
Qed.

End Extras3.

(** X5: after the timed-translation pass, the timed and the plain
    translation maps never share a key, and every plain entry is one the
    first translation pass stored for that key. *)
Theorem timed_plain_disjoint root :
  (forall K, is_Some ((extract_timed root (extract_translations root)).1 !! K) ->
             (extract_timed root (extract_translations root)).2 !! K = None)
  /\ (forall K m, (extract_timed root (extract_translations root)).2 !! K = Some m ->
                  extract_translations root !! K = Some m).
Proof.
  destruct (extract_timed_inv root (extract_translations root)) as (H1 & H2 & _).
  split; [exact H1|exact H2].
Qed.

Lemma timed_plain_disjoint_witness :
  (is_Some ((extract_timed doc_timed_translation (extract_translations doc_timed_translation)).1 !! js "L1") ->
   (extract_timed doc_timed_translation (extract_translations doc_timed_translation)).2 !! js "L1" = None)
  /\ is_Some ((extract_timed doc_timed_translation (extract_translations doc_timed_translation)).1 !! js "L1").
Proof.
  split; [exact (proj1 (timed_plain_disjoint doc_timed_translation) (js "L1"))|].
  vm_compute. eexists. reflexivity.
Defined.

(** X6: no translation or line romanization entry that line building
    reads has both its [main] and [bg] text empty: the plain and timed
    translation maps and the line romanization map only store an entry
    when one of the two trimmed texts is non-empty. *)
Theorem metadata_entries_nonblank ts root s K m :
  ((extract_timed root (extract_translations root)).1 !! K = Some m
   \/ (extract_timed root (extract_translations root)).2 !! K = Some m
   \/ (fst (extract_romanizations ts root s)).1 !! K = Some m) ->
  truthy (lm_main m) || truthy (lm_bg m) = true.
Proof.
  destruct (extract_timed_inv root (extract_translations root)) as (_ & H2 & H3).
  intros [H|[H|H]].
  - exact (H3 K m H).
  - exact (extract_translations_nonblank root K m (H2 K m H)).
  - exact (romanizations_nonblank ts root s K m H).
Qed.

Lemma metadata_entries_nonblank_witness :
  (extract_timed doc_timed_translation (extract_translations doc_timed_translation)).1 !! js "L1"
    = Some (mkLineMeta (js "Hello") (js "there")) /\
  truthy (js "Hello") || truthy (js "there") = true.
Proof.
  split; [vm_compute; reflexivity|].
  apply (metadata_entries_nonblank parseTimespan_spec doc_timed_translation st0 (js "L1")
    (mkLineMeta (js "Hello") (js "there"))).
  left. vm_compute. reflexivity.
Defined.

(** X7: for every key [k] other than [songwriter], the metadata of
    [parseLyric] holds at most one entry with key [k]; it exists exactly
    when some [amll:meta] element has key [k] and a non-empty value, and
    its value list is the values of all such elements in document order. *)
Theorem amll_meta_accumulates ts Number innerHTML uid0 root k :
  k <> js "songwriter" ->
  let md := metadata (parseLyric ts Number innerHTML uid0 (WellFormed root)) in
  find_first (fun m => jsstr_eqb (m_key m) k) md = meta_entry k (meta_values root k)
  /\ length (filter (fun m => jsstr_eqb (m_key m) k) md)
     = (if meta_values root k then 0 else 1)%nat.
Proof.
  intros Hk. cbv zeta. unfold parseLyric. simpl parseFromString.
  pose proof (parseDocument_metadata ts Number innerHTML root (mkSt [] uid0 ∅ 0)) as Hm.
  destruct (parseDocument ts Number innerHTML root (mkSt [] uid0 ∅ 0)) as [md s]. simpl in Hm |- *.
  subst md. destruct (extract_meta_inv root k) as [H1 H2].
  unfold extract_songwriters.
  destruct (0 <? length _)%nat; [|split; assumption].
  assert (Hne : jsstr_eqb (js "songwriter") k = false) by (apply jsstr_eqb_neq; congruence).
  rewrite filter_app, length_app. simpl. rewrite filter_cons, decide_False by (simpl; rewrite Hne; auto).
  simpl. rewrite Nat.add_0_r. split; [|exact H2].
  destruct (find_first (fun m => jsstr_eqb (m_key m) k) (extract_meta root)) eqn:E.
  - rewrite (find_first_app_some _ _ _ _ E). exact H1.
  - rewrite (find_first_app_none _ _ _ E). simpl. rewrite Hne. exact H1.
Qed.

Lemma amll_meta_accumulates_witness :
  js "album" <> js "songwriter" /\
  let md := metadata (parseLyric parseTimespan_spec number0 innerHTML0 0
              (WellFormed (el "tt" [] [el "head" [] [el "metadata" [] [
                 el "amll:meta" [("key", "album"); ("value", "A")]%string [];
                 el "amll:meta" [("key", "album"); ("value", "B")]%string []]]]))) in
  find_first (fun m => jsstr_eqb (m_key m) (js "album")) md
    = meta_entry (js "album") (meta_values (el "tt" [] [el "head" [] [el "metadata" [] [
                 el "amll:meta" [("key", "album"); ("value", "A")]%string [];
                 el "amll:meta" [("key", "album"); ("value", "B")]%string []]]]) (js "album"))
  /\ length (filter (fun m => jsstr_eqb (m_key m) (js "album")) md)
     = (if meta_values (el "tt" [] [el "head" [] [el "metadata" [] [
                 el "amll:meta" [("key", "album"); ("value", "A")]%string [];
                 el "amll:meta" [("key", "album"); ("value", "B")]%string []]]]) (js "album")
        then 0 else 1)%nat.
Proof.
  assert (H : js "album" <> js "songwriter") by (vm_compute; discriminate).
  split; [exact H|].
  exact (amll_meta_accumulates parseTimespan_spec number0 innerHTML0 0 _ _ H).
Defined.

(** X9: for a background line whose words all have non-empty text, the
    final bracket surgery changes the concatenated text of its words by
    exactly removing one leading [(]/[（] and one trailing [)]/[）], if
    present. *)
Theorem bg_bracket_surgery e line :
  l_isBG line = true -> Forall (fun w => w_word w <> []) (l_words line) ->
  words_text (l_words (finish_line e line)) = strip_close (strip_open (words_text (l_words line))).
Proof.
  intros Hb Hw.
  assert (E : l_words (finish_line e line) = strip_last_word (strip_first_word (l_words line))).
  { destruct line as [? ? ? ? bg]. simpl in Hb. subst bg. unfold finish_line. destruct e; reflexivity. }
  rewrite E. destruct (strip_first_text (l_words line) Hw) as [H1 H2].
  rewrite strip_last_text by exact H2. rewrite H1. reflexivity.
Qed.

Lemma bg_bracket_surgery_witness :
  let line := mkLine 0 [mkWord 1 (js "(a") (Num 0) (Num 1) false (Num 0) [] None;
                        mkWord 2 (js "b)") (Num 1) (Num 2) false (Num 0) [] None]
                [] [] true false (Num 0) (Num 2) false in
  words_text (l_words (finish_line true line)) = js "ab".
Proof.
  cbv zeta.
  rewrite bg_bracket_surgery; [vm_compute; reflexivity|reflexivity|].
  repeat constructor; simpl; discriminate.
Defined.

Lemma parseSpan_elem n attrs kids :
  parseSpan (NElem n attrs kids)
  = let '(text, rchildren) := fold_left span_step kids ([], []) in
    mkSpan text (getAttr attrs (js "begin")) (getAttr attrs (js "end"))
      (getAttr attrs (js "role")) (getAttr attrs (js "lang"))
      (getAttr attrs (js "empty-beat")) (getAttr attrs (js "ruby"))
      (rev rchildren) [].
Proof.
  cbn [parseSpan]. generalize (@pair jsstr (list SpanNode) [] []) as p.
  induction kids as [|k kids IH]; intros p; [reflexivity|]. exact (IH (span_step p k)).
Qed.

Lemma parseSpan_fields n attrs kids :
  sp_ruby (parseSpan (NElem n attrs kids)) = getAttr attrs (js "ruby")
  /\ sp_role (parseSpan (NElem n attrs kids)) = getAttr attrs (js "role")
  /\ sp_tail (parseSpan (NElem n attrs kids)) = [].
Proof.
  rewrite parseSpan_elem. destruct (fold_left span_step kids ([], [])). repeat split.
Qed.

Lemma flattenSpanText_eq span :
  flattenSpanText span
  = (if skipCurrent span then [] else sp_text span ++ flat_map flattenSpanText (sp_children span))
    ++ sp_tail span.
Proof.
  destruct span. reflexivity.
Qed.

Lemma descText_elem n attrs kids : descText (NElem n attrs kids) = flat_map descText kids.
Proof.
  reflexivity.
Qed.

Lemma plain_span_elem n attrs kids :
  plain_span (NElem n attrs kids)
  = jsstr_eqb (localName n) (js "span") && role_kept (getAttr attrs (js "role"))
    && forallb plain_span kids.
Proof. reflexivity. Qed.

Lemma skipCurrent_role_kept span : skipCurrent span = negb (role_kept (sp_role span)).
Proof. unfold skipCurrent, role_kept. destruct (sp_role span); [rewrite negb_involutive|]; reflexivity. Qed.

Lemma flat_map_snoc {A B} (f : A -> list B) l x : flat_map f (l ++ [x]) = flat_map f l ++ f x.
Proof. rewrite flat_map_app. simpl. rewrite app_nil_r. reflexivity. Qed.

Lemma acc_text_fold (l : list node) :
  Forall (fun k => plain_span k = true /\
                   (is_elem k = true -> flattenSpanInnerText (parseSpan k) = descText k)) l ->
  forall p, acc_text (fold_left span_step l p) = acc_text p ++ flat_map descText l.
Proof.
  induction l as [|k l IH]; intros Hl p; simpl.
  - rewrite app_nil_r. reflexivity.
  - inversion Hl as [|? ? [Hp Hk] Hl']; subst. rewrite IH by exact Hl'.
    rewrite app_assoc. f_equal. destruct p as [t cs].
    destruct k as [s|s|s|kn ka kk]; cbn [span_step fst snd descText] in Hp |- *.
    + destruct cs as [|c cs]; unfold acc_text; simpl.
      * rewrite !app_nil_r. reflexivity.
      * rewrite !flat_map_snoc, !flattenSpanText_eq.
        assert (Hs : skipCurrent (add_tail c s) = skipCurrent c) by (destruct c; reflexivity).
        rewrite Hs. destruct c; simpl. rewrite !app_assoc. reflexivity.
    + discriminate.
    + rewrite app_nil_r. reflexivity.
    + rewrite plain_span_elem in Hp.
      apply andb_prop in Hp as [Hp _]. apply andb_prop in Hp as [Hsp _]. rewrite Hsp.
      unfold acc_text. cbn [fst snd rev]. rewrite flat_map_snoc, app_assoc. f_equal.
      rewrite flattenSpanText_eq. destruct (parseSpan_fields kn ka kk) as (_ & _ & ->).
      rewrite app_nil_r. apply Hk. reflexivity.
Qed.

Lemma span_inner_text_elem n attrs kids :
  role_kept (getAttr attrs (js "role")) = true ->
  Forall (fun k => plain_span k = true /\
                   (is_elem k = true -> flattenSpanInnerText (parseSpan k) = descText k)) kids ->
  flattenSpanInnerText (parseSpan (NElem n attrs kids)) = descText (NElem n attrs kids).
Proof.
  intros Hr Hk. rewrite descText_elem.
  pose proof (acc_text_fold kids Hk ([], [])) as Ha.
  rewrite parseSpan_elem. destruct (fold_left span_step kids ([], [])) as [text rch].
  unfold flattenSpanInnerText. rewrite skipCurrent_role_kept. simpl. rewrite Hr. simpl.
  exact Ha.
Qed.

Lemma span_inner_text n :
  plain_span n = true -> is_elem n = true -> flattenSpanInnerText (parseSpan n) = descText n.
Proof.
  induction n as [s|s|s|n attrs kids IHk] using node_ind'; try discriminate.
  intros Hp _. rewrite plain_span_elem in Hp.
  apply andb_prop in Hp as [Hp Hall]. apply andb_prop in Hp as [_ Hr].
  pose proof (proj1 (forallb_forall plain_span kids) Hall) as Hall'. clear Hall. rename Hall' into Hall.
  apply span_inner_text_elem; [exact Hr|].
  rewrite List.Forall_forall in IHk |- *.
  intros k Hin. split; [exact (Hall k Hin)|exact (IHk k Hin (Hall k Hin))].
Qed.

(** X10: a timed word that is not a ruby container and whose subtree holds
    only text and (untagged, [x-bg] or otherwise non-skipped) spans gets as
    its text exactly the [textContent] of its element, and as its times the
    decoded [begin] and [end]. *)
Theorem word_text_is_text_content ts Number n attrs kids s b e :
  opt_is (getAttr attrs (js "ruby")) "container" = false ->
  getAttr attrs (js "begin") = Some b -> truthy b = true ->
  getAttr attrs (js "end") = Some e -> truthy e = true ->
  role_kept (getAttr attrs (js "role")) = true -> forallb plain_span kids = true ->
  exists w, fst (createWordFromSpanElement ts Number (NElem n attrs kids) s) = Some w
    /\ w_word w = textContent (NElem n attrs kids)
    /\ w_startTime w = Num (ts b) /\ w_endTime w = Num (ts e).
Proof.
  intros Hc Hb Htb He Hte Hr Hall.
  unfold createWordFromSpanElement. cbv zeta.
  assert (Ob : otruthy (getAttr attrs (js "begin")) = true) by (rewrite Hb; exact Htb).
  assert (Oe : otruthy (getAttr attrs (js "end")) = true) by (rewrite He; exact Hte).
  destruct (parseSpan_fields n attrs kids) as (Hru & _ & _). rewrite Hru, Hc, Ob, Oe, Hb, He.
  cbn [negb orb]. unfold bind, uid, ret. cbn [fst].
  eexists. split; [reflexivity|]. cbn [w_word w_startTime w_endTime default].
  split; [|split; reflexivity].
  unfold textContent. apply (span_inner_text_elem n attrs kids); [exact Hr|].
  pose proof (proj1 (forallb_forall plain_span kids) Hall) as Hall'. clear Hall. rename Hall' into Hall.
  apply List.Forall_forall. intros k Hin.
  split; [exact (Hall k Hin)|]. apply span_inner_text, Hall, Hin.
Qed.

Lemma word_text_is_text_content_witness :
  exists w, fst (createWordFromSpanElement parseTimespan_spec number0
               (el "span" [("begin", "1"); ("end", "2")]%string
                  [tx "he"; el "span" [("ttm:role", "x-bg")]%string [tx "l"]; tx "lo"]) st0) = Some w
    /\ w_word w = textContent (el "span" [("begin", "1"); ("end", "2")]%string
                  [tx "he"; el "span" [("ttm:role", "x-bg")]%string [tx "l"]; tx "lo"])
    /\ w_startTime w = Num (parseTimespan_spec (js "1")) /\ w_endTime w = Num (parseTimespan_spec (js "2")).
Proof.
  apply (word_text_is_text_content parseTimespan_spec number0 _ _ _ st0 (js "1") (js "2"));
    vm_compute; reflexivity.
Defined.

(** X11: the metadata of [parseLyric] holds one [songwriter] entry for
    the [amll:meta] elements of key [songwriter] (if any has a non-empty
    value) and, separately, one for the iTunes songwriter elements (if any
    has non-blank text): two entries with the same key when both exist. *)
Theorem songwriter_entries ts Number innerHTML uid0 root :
  length (filter (fun m => jsstr_eqb (m_key m) (js "songwriter"))
            (metadata (parseLyric ts Number innerHTML uid0 (WellFormed root))))
  = ((if meta_values root (js "songwriter") then 0 else 1)
     + (if songwriter_names root then 0 else 1))%nat.
Proof.
  unfold parseLyric. simpl parseFromString.
  pose proof (parseDocument_metadata ts Number innerHTML root (mkSt [] uid0 ∅ 0)) as Hm.
  destruct (parseDocument ts Number innerHTML root (mkSt [] uid0 ∅ 0)) as [md s]. simpl in Hm |- *.
  subst md. destruct (extract_meta_inv root (js "songwriter")) as [_ H2].
  unfold extract_songwriters. fold (songwriter_names root).
  destruct (songwriter_names root) as [|nm nms]; simpl.
  - rewrite H2. lia.
  - rewrite filter_app, length_app, H2. reflexivity.
Qed.

Section WordTiming.

Lemma fold_min_spec (l : list LyricWordBase) :
  Forall (fun v => exists x, wb_startTime v = Num x) l ->
  forall acc, (acc = PosInf \/ exists a0, acc = Num a0) ->
  let r := fold_left (fun pv cv => math_min pv (wb_startTime cv)) l acc in
  (r = PosInf /\ l = [])
  \/ exists a, r = Num a /\ (forall a0, acc = Num a0 -> a <= a0)
     /\ Forall (fun v => exists x, wb_startTime v = Num x /\ a <= x) l
     /\ (acc = Num a \/ Exists (fun v => wb_startTime v = Num a) l).
Proof.
  induction l as [|v l IH]; intros Hl acc Hacc; cbv zeta; simpl.
  - destruct Hacc as [->|[a0 ->]]; [left; split; reflexivity|].
    right. exists a0. split; [reflexivity|]. split; [intros a1 H; injection H; lia|].
    split; [constructor|left; reflexivity].
  - inversion Hl as [|? ? [x Hx] Hl']; subst. rewrite Hx.
    set (acc' := math_min acc (Num x)).
    assert (Ha' : exists m, acc' = Num m /\ m <= x /\ (forall a0, acc = Num a0 -> m <= a0)
                          /\ (acc = Num m \/ m = x)).
    { unfold acc'. destruct Hacc as [->|[a0 ->]]; simpl.
      - exists x. split; [reflexivity|]. split; [lia|]. split; [discriminate|right; reflexivity].
      - exists (Z.min a0 x). split; [reflexivity|]. split; [lia|].
        split; [intros a1 H; injection H as <-; lia|].
        destruct (Z.min_spec a0 x) as [[_ ->]|[_ ->]]; [left; reflexivity|right; reflexivity]. }
    destruct Ha' as (m & Em & Hmx & Hmacc & Hmw).
    destruct (IH Hl' acc' (or_intror (ex_intro _ m Em))) as [[_ Hnil]|(a & Er & Ha0 & Hall & Hat)].
    + subst l. right. exists m. simpl. rewrite Em. split; [reflexivity|].
      split; [exact Hmacc|]. split; [constructor; [exists x; split; [exact Hx|exact Hmx]|constructor]|].
      destruct Hmw as [Hm| ->]; [left; exact Hm|right; constructor; exact Hx].
    + right. exists a. split; [exact Er|].
      pose proof (Ha0 m Em) as Ham.
      split; [intros a0 H; specialize (Hmacc a0 H); lia|].
      split; [constructor; [exists x; split; [exact Hx|lia]|exact Hall]|].
      destruct Hat as [Hat|Hat]; [|right; apply List.Exists_cons_tl; exact Hat].
      rewrite Em in Hat. injection Hat as <-.
      destruct Hmw as [Hm| ->]; [left; exact Hm|right; constructor; exact Hx].
Qed.

Lemma fold_max_spec (l : list LyricWordBase) :
  Forall (fun v => exists y, wb_endTime v = Num y) l ->
  forall b0,
  exists b, fold_left (fun pv cv => math_max pv (wb_endTime cv)) l (Num b0) = Num b
    /\ b0 <= b /\ Forall (fun v => exists y, wb_endTime v = Num y /\ y <= b) l
    /\ (b = b0 \/ Exists (fun v => wb_endTime v = Num b) l).
Proof.
  induction l as [|v l IH]; intros Hl b0; simpl.
  - exists b0. split; [reflexivity|]. split; [lia|]. split; [constructor|left; reflexivity].
  - inversion Hl as [|? ? [y Hy] Hl']; subst. rewrite Hy. simpl.
    destruct (IH Hl' (Z.max b0 y)) as (b & Er & Hb & Hall & Hat).
    exists b. split; [exact Er|]. split; [lia|].
    split; [constructor; [exists y; split; [exact Hy|lia]|exact Hall]|].
    destruct Hat as [->|Hat]; [|right; apply List.Exists_cons_tl; exact Hat].
    destruct (Z.max_spec b0 y) as [[_ ->]|[_ ->]]; [right; constructor; exact Hy|left; reflexivity].
Qed.

Lemma Forall_filter_bool {A} (P : A -> Prop) (f : A -> bool) (l : list A) :
  Forall P l -> Forall P (filter f l).
Proof.
  induction 1 as [|x l Hx Hl IH]; [constructor|]. rewrite filter_cons.
  case_decide; [constructor; assumption|exact IH].
Qed.

End WordTiming.

(** X12: when every ruby word has finite times, [computeWordTiming]
    returns the smallest start and the largest end (or [0]) over the ruby
    words with non-blank text, both finite: the start is [0] exactly when
    no ruby word has non-blank text, and the end is never negative. *)
Theorem computeWordTiming_bounds words :
  Forall (fun v => exists x y, wb_startTime v = Num x /\ wb_endTime v = Num y) words ->
  exists a b, computeWordTiming words = (Num a, Num b)
    /\ Forall (fun v => exists x y, wb_startTime v = Num x /\ wb_endTime v = Num y
                                    /\ a <= x /\ y <= b)
              (filter (fun v => nonblank (wb_word v)) words)
    /\ ((a = 0 /\ filter (fun v => nonblank (wb_word v)) words = [])
        \/ Exists (fun v => wb_startTime v = Num a) (filter (fun v => nonblank (wb_word v)) words))
    /\ 0 <= b
    /\ (b = 0 \/ Exists (fun v => wb_endTime v = Num b) (filter (fun v => nonblank (wb_word v)) words)).
Proof.
  intros Hw. unfold computeWordTiming. cbv zeta.
  set (fl := filter (fun v => nonblank (wb_word v)) words).
  assert (Hf : Forall (fun v => exists x y, wb_startTime v = Num x /\ wb_endTime v = Num y) fl)
    by (apply Forall_filter_bool; exact Hw).
  assert (Hs : Forall (fun v => exists x, wb_startTime v = Num x) fl)
    by (eapply Forall_impl; [exact Hf|]; intros v (x & y & Hx & _); exists x; exact Hx).
  assert (He : Forall (fun v => exists y, wb_endTime v = Num y) fl)
    by (eapply Forall_impl; [exact Hf|]; intros v (x & y & _ & Hy); exists y; exact Hy).
  destruct (fold_max_spec fl He 0) as (b & Eb & Hb0 & Hball & Hbat). rewrite Eb.
  assert (Hcomb : forall a, Forall (fun v => exists x, wb_startTime v = Num x /\ a <= x) fl ->
      Forall (fun v => exists x y, wb_startTime v = Num x /\ wb_endTime v = Num y
                                   /\ a <= x /\ y <= b) fl).
  { intros a Ha. clear -Ha Hball. induction fl as [|v l IH]; [constructor|].
    inversion Ha as [|? ? (x & Hx & Hax) Ha']; inversion Hball as [|? ? (y & Hy & Hyb) Hb']; subst.
    constructor; [exists x, y; auto|apply IH; assumption]. }
  destruct (fold_min_spec fl Hs PosInf (or_introl eq_refl))
    as [[Er Hnil]|(a & Er & _ & Hall & Hat)]; rewrite Er.
  - exists 0, b. split; [reflexivity|]. split; [rewrite Hnil; constructor|].
    split; [left; split; [reflexivity|exact Hnil]|]. split; [exact Hb0|exact Hbat].
  - exists a, b. split; [reflexivity|]. split; [apply Hcomb, Hall|].
    split; [right; destruct Hat as [Hat|Hat]; [discriminate|exact Hat]|]. split; [exact Hb0|exact Hbat].
Qed.

Lemma computeWordTiming_bounds_witness :
  Forall (fun v => exists x y, wb_startTime v = Num x /\ wb_endTime v = Num y)
    [mkWordBase (js "ka") (Num 300) (Num 500); mkWordBase (js " ") (Num 0) (Num 900);
     mkWordBase (js "na") (Num 100) (Num 400)] /\
  exists a b, computeWordTiming
    [mkWordBase (js "ka") (Num 300) (Num 500); mkWordBase (js " ") (Num 0) (Num 900);
     mkWordBase (js "na") (Num 100) (Num 400)] = (Num a, Num b)
    /\ Forall (fun v => exists x y, wb_startTime v = Num x /\ wb_endTime v = Num y
                                    /\ a <= x /\ y <= b)
              (filter (fun v => nonblank (wb_word v))
                 [mkWordBase (js "ka") (Num 300) (Num 500); mkWordBase (js " ") (Num 0) (Num 900);
                  mkWordBase (js "na") (Num 100) (Num 400)])
    /\ ((a = 0 /\ filter (fun v => nonblank (wb_word v))
                 [mkWordBase (js "ka") (Num 300) (Num 500); mkWordBase (js " ") (Num 0) (Num 900);
                  mkWordBase (js "na") (Num 100) (Num 400)] = [])
        \/ Exists (fun v => wb_startTime v = Num a) (filter (fun v => nonblank (wb_word v))
                 [mkWordBase (js "ka") (Num 300) (Num 500); mkWordBase (js " ") (Num 0) (Num 900);
                  mkWordBase (js "na") (Num 100) (Num 400)]))
    /\ 0 <= b
    /\ (b = 0 \/ Exists (fun v => wb_endTime v = Num b) (filter (fun v => nonblank (wb_word v))
                 [mkWordBase (js "ka") (Num 300) (Num 500); mkWordBase (js " ") (Num 0) (Num 900);
                  mkWordBase (js "na") (Num 100) (Num 400)])).
Proof.
  assert (H : Forall (fun v => exists x y, wb_startTime v = Num x /\ wb_endTime v = Num y)
    [mkWordBase (js "ka") (Num 300) (Num 500); mkWordBase (js " ") (Num 0) (Num 900);
     mkWordBase (js "na") (Num 100) (Num 400)]).
  { repeat constructor; eexists; eexists; split; reflexivity. }
  split; [exact H|]. exact (computeWordTiming_bounds _ H).
Defined.

(** C2 (amended): a text that is not well-formed XML does not make
    [parseLyric] fail: it raises nothing and returns the lyric read from
    whatever document [DOMParser] hands back, with one line per
    [body p[begin][end]] element of that document and per [x-bg] span
    nested in one.  When the engine returns the bare [parsererror] document
    of the standard, no selector of the parser matches and the result is
    the empty lyric, whatever the codec, the error message and the state of
    the id generator. *)
Theorem malformed_input_no_failure_signal ts Number innerHTML uid0 :
  (forall msg, parseLyric ts Number innerHTML uid0 (NotWellFormed (parsererror_doc msg)) = mkLyric [] [])
  /\ (forall recovered,
        length (lyricLines (parseLyric ts Number innerHTML uid0 (NotWellFormed recovered)))
        = sum_list_with count_lines
            (qsa_desc recovered (sel "body" []) (sel "p" ["begin"%string; "end"%string]))).
Proof.
  split; [intros msg; reflexivity|].
  intros root. unfold parseLyric. simpl parseFromString.
  destruct (parseDocument_lines ts Number innerHTML root (mkSt [] uid0 ∅ 0)) as [ctx Hc].
  destruct (parseDocument ts Number innerHTML root (mkSt [] uid0 ∅ 0)) as [md s] eqn:E.
  simpl in Hc |- *. rewrite Hc, lines_fold_count. simpl.
  rewrite (proj1 (romanizations_lines ts root (mkSt [] uid0 ∅ 0))). reflexivity.
Qed.

(** C2 counterexample: no failure signal and partial results.  With the
    standard error document a malformed text yields the same value as the
    well-formed empty document [<tt/>]; with the error document of
    Chromium for a text missing only its closing [</tt>] (the content read
    so far, a [parsererror] element inserted into its root), the line read
    before the error is returned as an ordinary result. *)
Lemma malformed_input_counterexample :
  parseLyric parseTimespan_spec number0 innerHTML0 0
    (NotWellFormed (parsererror_doc (js "mismatched tag"))) = mkLyric [] [] /\
  parseLyric parseTimespan_spec number0 innerHTML0 0 (WellFormed (el "tt" [] [])) = mkLyric [] [] /\
  map (fun l => (words_text (l_words l), l_startTime l, l_endTime l))
    (lyricLines (parseLyric parseTimespan_spec number0 innerHTML0 0
      (NotWellFormed (el "tt" [] [
         el "parsererror" [] [tx "error on line 1: Premature end of data in tag tt"];
         el "body" [] [el "div" [] [
           el "p" [("begin", "1s"); ("end", "2s")]%string [
             el "span" [("begin", "1s"); ("end", "2s")]%string [tx "hi"]]]]]))))
  = [(js "hi", Num 1000, Num 2000)].
Proof. split; [|split]; vm_compute; reflexivity. Qed.
